(** * Scheduling and caching core of the LinkedIn sourcing agent

    A shallow embedding of [smart_cache.py] (class [SmartCache]) and of
    [batch_processor.py] (classes [BatchProcessor] and
    [AsyncBatchProcessor]), with the properties of the cache store, the
    resource pool and the two schedulers stated over it.

    Conventions.
    - A [datetime] is the number of microseconds since 0001-01-01T00:00:00,
      an integer between [datetime_min] and [datetime_max].  The cache
      stores ISO-8601 texts and SQLite compares them as text; on the
      fixed-width texts that [datetime.isoformat] produces this order is
      the chronological one, so the columns hold the integer directly.
    - Python exceptions are values of [exn]; a computation that may raise
      returns a [result].
    - The clock and the storage layer are oracles carried by the world:
      the k-th reading of the clock and the outcome of the k-th call into
      SQLite are arbitrary, so every statement holds for all of them.
    - The readings of [time.time()] and the durations computed from them
      are rationals.  The average that SQLite computes and Python rounds in
      [get_cache_stats] is a binary64 number, a [spec_float].
    - [json.dumps], [json.loads] and [hashlib.md5] are the interpreter's
      and are parameters of the cache; [py_dumps] and [py_loads] are the
      first two on the values built from [None], booleans, integers, lists
      and tuples.
    - A scheduler is a state and its threads or tasks take steps on it one
      at a time, in any order; what a blocking call or the unit of work
      does is given with the step. *)

From Stdlib Require Import ZArith QArith Qcanon SpecFloat Ascii.
From stdpp Require Import gmap strings list fin_maps pretty.

#[global] Close Scope Qc_scope.
#[global] Close Scope Q_scope.

(** ** The cache store: [smart_cache.py] *)

Module SmartCache.

(** One line of the table [cache]; the column [key] is the key of the map
    that holds the lines. *)
Record row := Row {
  data : string;
  cache_type : string;
  created_at : Z;
  expires_at : Z;
  access_count : Z;
  last_accessed : Z
}.

Inductive exn :=
| sqlite3_Error (msg : string)
| TypeError (msg : string)
| JSONDecodeError (msg : string)
| OverflowError (msg : string).

Definition exn_str (e : exn) : string :=
  match e with
  | sqlite3_Error m | TypeError m | JSONDecodeError m | OverflowError m => m
  end.

Inductive result (A : Type) :=
| Ok (a : A)
| Raise (e : exn).
Arguments Ok {A} a.
Arguments Raise {A} e.

Inductive level := INFO | ERROR.

(** The world a cache operation runs in: the committed content of
    [cache.db], the clock, the behaviour of the storage layer and the
    lines written to the logger. *)
Record world := World {
  table : gmap string row;
  clock : nat → Z;
  reads : nat;
  faults : nat → option string;
  calls : nat;
  log : list (level * string)
}.

Definition with_table (t : gmap string row) (w : world) : world :=
  World t (clock w) (reads w) (faults w) (calls w) (log w).

Definition M (A : Type) : Type := world → result A * world.

#[global] Instance M_ret : MRet M := λ A a w, (Ok a, w).

#[global] Instance M_bind : MBind M := λ A B f m w,
  match m w with
  | (Ok a, w') => f a w'
  | (Raise e, w') => (Raise e, w')
  end.

Definition raise {A} (e : exn) : M A := λ w, (Raise e, w).

(** [try: body except Exception as e: handler] *)
Definition try_except {A} (body : M A) (handler : exn → M A) : M A := λ w,
  match body w with
  | (Ok a, w') => (Ok a, w')
  | (Raise e, w') => handler e w'
  end.

(** [datetime.now()] *)
Definition datetime_now : M Z := λ w,
  (Ok (clock w (reads w)),
   World (table w) (clock w) (S (reads w)) (faults w) (calls w) (log w)).

(** Every call into [sqlite3] asks the storage layer whether it fails. *)
Definition storage_call : M unit := λ w,
  let w' := World (table w) (clock w) (reads w) (faults w) (S (calls w)) (log w) in
  match faults w (calls w) with
  | Some msg => (Raise (sqlite3_Error msg), w')
  | None => (Ok (), w')
  end.

Definition logger (l : level) (msg : string) : M unit := λ w,
  (Ok (), World (table w) (clock w) (reads w) (faults w) (calls w) (log w ++ [(l, msg)])).

(** A connection sees the committed table and carries its own uncommitted
    changes; they reach the table at [commit] and are lost otherwise. *)
Definition read_table : M (gmap string row) := λ w, (Ok (table w), w).

Definition write_table (t : gmap string row) : M unit := λ w, (Ok (), with_table t w).

Definition sqlite3_connect : M (gmap string row) := storage_call;; read_table.

Definition cursor_execute {A} (a : A) : M A := storage_call;; mret a.

Definition conn_commit (pending : gmap string row) : M unit :=
  storage_call;; write_table pending.

Definition conn_close : M unit := storage_call.

(** The statements of the class, as functions on the table. *)

(** [SELECT data, expires_at FROM cache WHERE key = ? AND expires_at > ?] *)
Definition select_valid (key : string) (now : Z) (t : gmap string row)
  : option (string * Z) :=
  r ← t !! key;
  if bool_decide (now < expires_at r)%Z then Some (data r, expires_at r) else None.

(** [UPDATE cache SET access_count = access_count + 1, last_accessed = ?
     WHERE key = ?] *)
Definition update_access (key : string) (now : Z) (t : gmap string row)
  : gmap string row :=
  alter (λ r, Row (data r) (cache_type r) (created_at r) (expires_at r)
                  (access_count r + 1) now) key t.

(** [INSERT OR REPLACE INTO cache (...) VALUES (...)] *)
Definition insert_or_replace (key : string) (r : row) (t : gmap string row)
  : gmap string row := <[key := r]> t.

(** [DELETE FROM cache WHERE key = ?] *)
Definition delete_key (key : string) (t : gmap string row) : gmap string row :=
  base.delete key t.

(** [DELETE FROM cache WHERE expires_at <= ?], with [cursor.rowcount] *)
Definition delete_expired (now : Z) (t : gmap string row)
  : gmap string row * nat :=
  (filter (λ kr, ¬ (expires_at kr.2 ≤ now)%Z) t,
   size (filter (λ kr, (expires_at kr.2 ≤ now)%Z) t)).

(** [DELETE FROM cache WHERE created_at <= ?], with [cursor.rowcount] *)
Definition delete_older (cutoff : Z) (t : gmap string row)
  : gmap string row * nat :=
  (filter (λ kr, ¬ (created_at kr.2 ≤ cutoff)%Z) t,
   size (filter (λ kr, (created_at kr.2 ≤ cutoff)%Z) t)).

(** The statements of [get_cache_stats]. *)

(** [SELECT COUNT( * ) FROM cache WHERE expires_at <= ?] *)
Definition count_expired (now : Z) (t : gmap string row) : nat :=
  size (filter (λ kr, (expires_at kr.2 ≤ now)%Z) t).

(** [SELECT cache_type, COUNT( * ), AVG(access_count), MAX(last_accessed)
     FROM cache GROUP BY cache_type], the line of one [cache_type]; a type
    without lines has none. *)
Definition group (ty : string) (t : gmap string row) : gmap string row :=
  filter (λ kr, cache_type kr.2 = ty) t.

Definition sum_access (ty : string) (t : gmap string row) : Z :=
  map_fold (λ _ r acc, (access_count r + acc)%Z) 0%Z (group ty t).

Definition max_last_accessed (ty : string) (t : gmap string row) : option Z :=
  map_fold (λ _ r acc, Some (from_option (Z.max (last_accessed r))
                                          (last_accessed r) acc))
    None (group ty t).

(** Numbers as SQLite hands them to Python: an [INTEGER] is an [int] and a
    [REAL] is a [float], an IEEE 754 binary64 number (53 bits of mantissa,
    exponents below 1024). *)
Inductive number :=
| Int (n : Z)
| Float (x : spec_float).

(** The [float] nearest to an integer, a tie going to the even mantissa. *)
Definition float_of_int (n : Z) : spec_float :=
  binary_normalize 53 1024 n 0 false.

(** [AVG] over an [INTEGER] column: the sum of the column as a [REAL],
    divided by the number of lines. *)
Definition AVG (sum : Z) (count : nat) : spec_float :=
  SFdiv 53 1024 (float_of_int sum) (float_of_int (Z.of_nat count)).

Definition group_by_cache_type (t : gmap string row) (ty : string)
  : option (nat * spec_float * option Z) :=
  match size (group ty t) with
  | O => None
  | S n => Some (S n, AVG (sum_access ty t) (S n), max_last_accessed ty t)
  end.

(** [x or y] with a [float] on the left: a zero is false. *)
Definition or_ (x : spec_float) (y : Z) : number :=
  match x with
  | S754_zero _ => Int y
  | _ => Float x
  end.

(** The integer nearest to [num / den], a tie going to the even one, for
    [num] not negative and [den] positive. *)
Definition nearest_even (num den : Z) : Z :=
  let q := (num / den)%Z in
  match (2 * (num `mod` den) ?= den)%Z with
  | Lt => q
  | Eq => if Z.even q then q else (q + 1)%Z
  | Gt => (q + 1)%Z
  end.

(** [round(x, ndigits)] with [ndigits >= 0].  An [int] is returned as it is.
    A finite [float] [m * 2 ** e] is taken at its exact value to the
    nearest multiple of [10 ** -ndigits], a tie going to the even multiple,
    and the result is the [float] nearest to that decimal; beyond 323
    digits, and for zeros, infinities and NaN, the [float] is returned as
    it is. *)
Definition round (x : number) (ndigits : nat) : number :=
  match x with
  | Float (S754_finite s m e) =>
      if (323 <? Z.of_nat ndigits)%Z then x
      else
        let scale := (10 ^ Z.of_nat ndigits)%Z in
        let n := if (0 <=? e)%Z then (Z.pos m * 2 ^ e * scale)%Z
                 else nearest_even (Z.pos m * scale) (2 ^ (- e)) in
        Float match n with
              | Z.pos p => SFdiv 53 1024 (S754_finite s p 0)
                             (S754_finite false (Z.to_pos scale) 0)
              | _ => S754_zero s
              end
  | _ => x
  end.

(** An entry of [type_stats] in [get_cache_stats]. *)
Record type_stats := TypeStats {
  count : nat;
  avg_access : number;
  last_access : option Z
}.

(** What [get_cache_stats] reports. *)
Record cache_stats := CacheStats {
  total_entries : nat;
  expired_entries : nat;
  active_entries : Z;
  by_type : string → option type_stats
}.

(** [datetime] arithmetic. *)
Definition datetime_min : Z := 0.
Definition datetime_max : Z := 315537897599999999.
Definition microseconds_per_hour : Z := 3600000000.
Definition microseconds_per_day : Z := 86400000000.

Definition representable (t : Z) : Prop := (datetime_min ≤ t ≤ datetime_max)%Z.

#[global] Instance representable_dec t : Decision (representable t).
Proof. unfold representable. apply _. Defined.

(** [t + timedelta(microseconds=d)] raises [OverflowError] outside the range. *)
Definition datetime_add (t d : Z) : M Z :=
  if decide (representable (t + d)) then mret (t + d)%Z
  else raise (OverflowError "date value out of range").

(** [self.expiration_times], in hours. *)
Definition expiration_times : gmap string Z :=
  list_to_map [
    ("linkedin_profile", 24%Z);
    ("github_profile", 12%Z);
    ("github_repos", 6%Z);
    ("twitter_profile", 24%Z);
    ("website_data", 48%Z);
    ("search_results", 2%Z);
    ("job_analysis", 168%Z)
  ].

(** [custom_expiration or self.expiration_times.get(data_type, 24)]:
    [or] takes its right operand when the left one is [None] or [0]. *)
Definition expiration_hours (data_type : string) (custom_expiration : option Z) : Z :=
  match custom_expiration with
  | Some h => if decide (h = 0%Z) then default 24%Z (expiration_times !! data_type) else h
  | None => default 24%Z (expiration_times !! data_type)
  end.

(** The storage layer answers every call. *)
Definition healthy (w : world) : Prop := ∀ k, faults w k = None.

(** Some call into the storage layer made between [w] and [w'] failed. *)
Definition storage_failed (w w' : world) : Prop :=
  ∃ k, calls w ≤ k < calls w' ∧ is_Some (faults w k).

Section Cache.

(** [hashlib.md5(s.encode()).hexdigest()], [json.dumps] and [json.loads]
    are the interpreter's; [json.dumps] raises [TypeError] on an object it
    cannot serialise and [json.loads] raises on a text it cannot read. *)
Variable md5_hexdigest : string → string.
Variable payload : Type.
Variable json_dumps : payload → option string.
Variable json_loads : string → option payload.

Definition _generate_cache_key (data_type identifier : string) : string :=
  md5_hexdigest (data_type +:+ ":" +:+ identifier).

Definition dumps (p : payload) : M string :=
  match json_dumps p with
  | Some s => mret s
  | None => raise (TypeError "Object is not JSON serializable")
  end.

Definition loads (s : string) : M payload :=
  match json_loads s with
  | Some p => mret p
  | None => raise (JSONDecodeError "Expecting value")
  end.

(** [SmartCache.get]; a miss is [None]. *)
Definition get (data_type identifier : string) : M (option payload) :=
  try_except
    (conn ← sqlite3_connect;
     let cache_key := _generate_cache_key data_type identifier in
     now ← datetime_now;
     result ← cursor_execute (select_valid cache_key now conn);
     match result with
     | Some (data, _) =>
         now' ← datetime_now;
         conn' ← cursor_execute (update_access cache_key now' conn);
         conn_commit conn';;
         conn_close;;
         logger INFO ("Cache HIT for " +:+ data_type +:+ ":" +:+ identifier);;
         p ← loads data;
         mret (Some p)
     | None =>
         conn_close;;
         logger INFO ("Cache MISS for " +:+ data_type +:+ ":" +:+ identifier);;
         mret None
     end)
    (λ e, logger ERROR ("Error getting from cache: " +:+ exn_str e);;
          mret None).

(** [SmartCache.set] *)
Definition set (data_type identifier : string) (data : payload)
    (custom_expiration : option Z) : M unit :=
  try_except
    (conn ← sqlite3_connect;
     let cache_key := _generate_cache_key data_type identifier in
     let hours := expiration_hours data_type custom_expiration in
     now ← datetime_now;
     expires ← datetime_add now (hours * microseconds_per_hour);
     text ← dumps data;
     created ← datetime_now;
     accessed ← datetime_now;
     conn' ← cursor_execute
       (insert_or_replace cache_key
          (Row text data_type created expires 0 accessed) conn);
     conn_commit conn';;
     conn_close;;
     logger INFO ("Cached " +:+ data_type +:+ ":" +:+ identifier +:+
                  " (expires in " +:+ pretty hours +:+ "h)"))
    (λ e, logger ERROR ("Error setting cache: " +:+ exn_str e)).

(** [SmartCache.delete] *)
Definition delete (data_type identifier : string) : M unit :=
  try_except
    (conn ← sqlite3_connect;
     let cache_key := _generate_cache_key data_type identifier in
     conn' ← cursor_execute (delete_key cache_key conn);
     conn_commit conn';;
     conn_close;;
     logger INFO ("Deleted cache entry: " +:+ data_type +:+ ":" +:+ identifier))
    (λ e, logger ERROR ("Error deleting from cache: " +:+ exn_str e)).

(** [SmartCache.clear_expired] *)
Definition clear_expired : M nat :=
  try_except
    (conn ← sqlite3_connect;
     now ← datetime_now;
     '(conn', deleted_count) ← cursor_execute (delete_expired now conn);
     conn_commit conn';;
     conn_close;;
     logger INFO ("Cleared " +:+ pretty deleted_count +:+ " expired cache entries");;
     mret deleted_count)
    (λ e, logger ERROR ("Error clearing expired cache: " +:+ exn_str e);;
          mret 0).

(** [SmartCache.cleanup_old_cache] *)
Definition cleanup_old_cache (days_old : Z) : M nat :=
  try_except
    (conn ← sqlite3_connect;
     now ← datetime_now;
     cutoff_date ← datetime_add now (- (days_old * microseconds_per_day));
     '(conn', deleted_count) ← cursor_execute (delete_older cutoff_date conn);
     conn_commit conn';;
     conn_close;;
     logger INFO ("Cleaned up " +:+ pretty deleted_count +:+
                  " cache entries older than " +:+ pretty days_old +:+ " days");;
     mret deleted_count)
    (λ e, logger ERROR ("Error cleaning up old cache: " +:+ exn_str e);;
          mret 0).

(** [SmartCache.get_cache_stats]; the empty dictionary of the [except]
    block is [None]. *)
Definition get_cache_stats : M (option cache_stats) :=
  try_except
    (conn ← sqlite3_connect;
     total ← cursor_execute (size conn);
     now ← datetime_now;
     expired ← cursor_execute (count_expired now conn);
     rows ← cursor_execute (group_by_cache_type conn);
     let type_stats := λ cache_type,
       '(count, avg_access, last_access) ← rows cache_type;
       Some (TypeStats count (round (or_ avg_access 0) 2) last_access) in
     conn_close;;
     mret (Some (CacheStats total expired (Z.of_nat total - Z.of_nat expired)
                   type_stats)))
    (λ e, logger ERROR ("Error getting cache stats: " +:+ exn_str e);;
          mret None).

End Cache.

Arguments get md5_hexdigest {payload} json_loads data_type identifier.
Arguments set md5_hexdigest {payload} json_dumps data_type identifier data
  custom_expiration.
Arguments dumps {payload} json_dumps p.
Arguments loads {payload} json_loads s.

(** The expiration the specification describes: the override whenever one
    is given, the default of the namespace otherwise. *)
Definition spec_expiration_hours (data_type : string) (custom_expiration : option Z) : Z :=
  match custom_expiration with
  | Some h => h
  | None => default 24%Z (expiration_times !! data_type)
  end.

(** Stores to run the operations on.  The digest is the text itself and a
    payload is its own serialisation; the clock advances by one microsecond
    at each reading. *)
Definition world0 : world :=
  World ∅ (λ k, Z.of_nat k) 0 (λ _, None) 0 [].

Definition world_down : world :=
  World ∅ (λ k, Z.of_nat k) 0 (λ _, Some "unable to open database file") 0 [].

Definition world1 : world :=
  World {[ "search_results:q" := Row "[0]" "search_results" 0 50 7 3 ]}
    (λ k, Z.of_nat k) 0 (λ _, None) 0 [].

Definition entry (expires : Z) : row := Row "[]" "search_results" 0 expires 0 0.

(** Three lines that have expired at time 100 and two that have not. *)
Definition world5 : world :=
  World (list_to_map [("search_results:a", entry 10);
                      ("search_results:b", entry 20);
                      ("search_results:c", entry 30);
                      ("search_results:d", entry 1000);
                      ("search_results:e", entry 2000)])
    (λ k, (100 + Z.of_nat k)%Z) 0 (λ _, None) 0 [].

Definition world_zero_override : world :=
  (set (λ s, s) Some "search_results" "q" "[1]" (Some 0%Z) world0).2.

(** *** The typed helpers of the class *)

Section Helpers.

Variable md5_hexdigest : string → string.
Variable payload : Type.
Variable json_dumps : payload → option string.
Variable json_loads : string → option payload.

(** [isinstance(x, list)], the truth value of [x] and [x.get(k)] are the
    interpreter's as well; [x.get(k)] is [None] for a key [x] does not
    have. *)
Variable is_list : payload → bool.
Variable truthy : payload → bool.
Variable dict_get : payload → string → option payload.

(** [SmartCache.get_cached_linkedin_profile] *)
Definition get_cached_linkedin_profile (linkedin_url : string) : M (option payload) :=
  get md5_hexdigest json_loads "linkedin_profile" linkedin_url.

(** [SmartCache.cache_linkedin_profile] *)
Definition cache_linkedin_profile (linkedin_url : string) (profile_data : payload)
  : M unit :=
  set md5_hexdigest json_dumps "linkedin_profile" linkedin_url profile_data None.

(** [SmartCache.get_cached_github_data] *)
Definition get_cached_github_data (github_username : string) : M (option payload) :=
  get md5_hexdigest json_loads "github_profile" github_username.

(** [SmartCache.cache_github_data] *)
Definition cache_github_data (github_username : string) (github_data : payload)
  : M unit :=
  set md5_hexdigest json_dumps "github_profile" github_username github_data None;;
  match dict_get github_data "github_repos" with
  | Some github_repos =>
      if truthy github_repos
      then set md5_hexdigest json_dumps "github_repos" github_username
             github_repos None
      else mret ()
  | None => mret ()
  end.

(** [SmartCache.get_cached_website_data] *)
Definition get_cached_website_data (website_url : string) : M (option payload) :=
  get md5_hexdigest json_loads "website_data" website_url.

(** [SmartCache.cache_website_data] *)
Definition cache_website_data (website_url : string) (website_data : payload)
  : M unit :=
  set md5_hexdigest json_dumps "website_data" website_url website_data None.

(** [SmartCache.get_cached_search_results] *)
Definition get_cached_search_results (search_query : string) : M (option payload) :=
  result ← get md5_hexdigest json_loads "search_results" search_query;
  mret (match result with
        | Some r => if is_list r then Some r else None
        | None => None
        end).

(** [SmartCache.cache_search_results] *)
Definition cache_search_results (search_query : string) (results : payload)
  : M unit :=
  set md5_hexdigest json_dumps "search_results" search_query results None.

(** [SmartCache.get_cached_job_analysis] *)
Definition get_cached_job_analysis (job_description : string) : M (option payload) :=
  get md5_hexdigest json_loads "job_analysis" job_description.

(** [SmartCache.cache_job_analysis] *)
Definition cache_job_analysis (job_description : string) (analysis : payload)
  : M unit :=
  set md5_hexdigest json_dumps "job_analysis" job_description analysis None.

(** [SmartCache.invalidate_linkedin_profile] *)
Definition invalidate_linkedin_profile (linkedin_url : string) : M unit :=
  delete md5_hexdigest "linkedin_profile" linkedin_url.

(** [SmartCache.invalidate_github_data] *)
Definition invalidate_github_data (github_username : string) : M unit :=
  delete md5_hexdigest "github_profile" github_username;;
  delete md5_hexdigest "github_repos" github_username.

(** [SmartCache.invalidate_website_data] *)
Definition invalidate_website_data (website_url : string) : M unit :=
  delete md5_hexdigest "website_data" website_url.

End Helpers.

Arguments get_cached_github_data md5_hexdigest {payload} json_loads github_username.
Arguments cache_github_data md5_hexdigest {payload} json_dumps truthy dict_get
  github_username github_data.
Arguments get_cached_search_results md5_hexdigest {payload} json_loads is_list
  search_query.
Arguments cache_search_results md5_hexdigest {payload} json_dumps search_query
  results.
Arguments get_cached_linkedin_profile md5_hexdigest {payload} json_loads
  linkedin_url.
Arguments cache_linkedin_profile md5_hexdigest {payload} json_dumps linkedin_url
  profile_data.
Arguments get_cached_website_data md5_hexdigest {payload} json_loads website_url.
Arguments cache_website_data md5_hexdigest {payload} json_dumps website_url
  website_data.
Arguments get_cached_job_analysis md5_hexdigest {payload} json_loads
  job_description.
Arguments cache_job_analysis md5_hexdigest {payload} json_dumps job_description
  analysis.

(** [SmartCache._is_expired]; [datetime.fromisoformat] is the interpreter's
    and raises on a text that is not a date, which the bare [except] turns
    into [True]. *)
Definition _is_expired (fromisoformat : string → option Z) (expires_at : string)
  : M bool :=
  match fromisoformat expires_at with
  | Some expires_time =>
      now ← datetime_now;
      mret (bool_decide (expires_time < now)%Z)
  | None => mret true
  end.


(** *** [json.dumps] and [json.loads] on a fragment of Python's values *)

(** The values built from [None], the booleans, the integers, lists and
    tuples. *)
#[warnings="-register-all"]
Inductive pyvalue :=
| PyNone
| PyBool (b : bool)
| PyInt (n : Z)
| PyList (items : list pyvalue)
| PyTuple (items : list pyvalue).

(** [json.dumps] with its default separators; a tuple is written as a
    list is, as a JSON array. *)
Fixpoint py_dumps_text (v : pyvalue) : string :=
  let array :=
    fix array (items : list pyvalue) : string :=
      match items with
      | [] => EmptyString
      | [item] => py_dumps_text item
      | item :: items' => py_dumps_text item +:+ ", " +:+ array items'
      end in
  match v with
  | PyNone => "null"
  | PyBool true => "true"
  | PyBool false => "false"
  | PyInt n => pretty n
  | PyList items | PyTuple items => "[" +:+ array items +:+ "]"
  end.

Definition py_dumps (v : pyvalue) : option string := Some (py_dumps_text v).

(** [json.loads] on the documents made of [null], [true], [false],
    integers and arrays; an array is read as a list.  A text that is no
    such document is [None]: the [JSONDecodeError]. *)
Definition whitespace (c : ascii) : bool :=
  bool_decide (nat_of_ascii c ∈ [32; 9; 10; 13]).

Fixpoint skip_whitespace (s : string) : string :=
  match s with
  | String c s' => if whitespace c then skip_whitespace s' else s
  | EmptyString => s
  end.

Definition digit (c : ascii) : option Z :=
  let n := Z.of_nat (nat_of_ascii c) in
  if bool_decide (48 ≤ n ≤ 57)%Z then Some (n - 48)%Z else None.

Fixpoint read_digits (acc : Z) (s : string) : Z * string :=
  match s with
  | String c s' =>
      match digit c with
      | Some d => read_digits (10 * acc + d) s'
      | None => (acc, s)
      end
  | EmptyString => (acc, s)
  end.

(** An integer: a minus sign or none, then either 0 or digits that do not
    start with 0. *)
Definition read_int (s : string) : option (Z * string) :=
  let '(sign, s1) := match s with
                     | String "-" s' => ((-1)%Z, s')
                     | _ => (1%Z, s)
                     end in
  match s1 with
  | String c s2 =>
      match digit c with
      | Some d =>
          let '(n, rest) := if bool_decide (d = 0%Z) then (0%Z, s2)
                            else read_digits d s2 in
          Some ((sign * n)%Z, rest)
      | None => None
      end
  | EmptyString => None
  end.

(** A value and, after the first value of an array, the rest of the array up
    to its bracket.  Every second call at the latest has taken a character
    from the text, so [fuel] above twice its length is never used up. *)
Fixpoint read_value (fuel : nat) (s : string) : option (pyvalue * string) :=
  match fuel with
  | O => None
  | S fuel' =>
      match skip_whitespace s with
      | String "n" (String "u" (String "l" (String "l" rest))) =>
          Some (PyNone, rest)
      | String "t" (String "r" (String "u" (String "e" rest))) =>
          Some (PyBool true, rest)
      | String "f" (String "a" (String "l" (String "s" (String "e" rest)))) =>
          Some (PyBool false, rest)
      | String "[" rest =>
          match skip_whitespace rest with
          | String "]" rest' => Some (PyList [], rest')
          | _ => read_items fuel' [] rest
          end
      | s' => '(n, rest) ← read_int s'; Some (PyInt n, rest)
      end
  end
with read_items (fuel : nat) (items : list pyvalue) (s : string)
    : option (pyvalue * string) :=
  match fuel with
  | O => None
  | S fuel' =>
      '(item, rest) ← read_value fuel' s;
      match skip_whitespace rest with
      | String "," rest' => read_items fuel' (items ++ [item]) rest'
      | String "]" rest' => Some (PyList (items ++ [item]), rest')
      | _ => None
      end
  end.

Definition py_loads (s : string) : option pyvalue :=
  '(v, rest) ← read_value (2 * String.length s + 2) s;
  match skip_whitespace rest with
  | EmptyString => Some v
  | _ => None
  end.

(** A tuple stored at time 0 in an empty cache. *)
Definition world_tuple : world :=
  (set (λ s, s) py_dumps "search_results" "q" (PyTuple [PyInt 1; PyInt 2]) None
     world0).2.


End SmartCache.

(** ** The schedulers: [batch_processor.py] *)

Module Batch.

(** What a unit of work returns: a dictionary from field names to values. *)
#[warnings="-register-all"]
Inductive value :=
| VInt (n : Z)
| VStr (s : string)
| VList (l : list value).

Abbreviation Dict := (gmap string value).

Module JobRequest.
Record t := Make {
  job_id : string;
  job_description : string;
  company_name : option string;
  position_title : option string;
  location : option string;
  max_candidates : Z;
  priority : Z;
  created_at : Z
}.
End JobRequest.

Module JobResult.
Record t := Make {
  job_id : string;
  success : bool;
  result : option Dict;
  error : option string;
  processing_time : Qc;
  candidates_found : value;
  completed_at : Z
}.
End JobResult.

(** The agents are told apart by the order in which [__init__] made them. *)
Abbreviation agent := nat (only parsing).

(** What the world outside the scheduler decides at a step: the readings of
    [time.time()] and [datetime.now()], and how a blocking call ends.  A
    unit of work ends by returning, by raising an [Exception] [e] of which
    [str(e)] is the text given, or by raising a [BaseException] that is no
    [Exception], such as [SystemExit]. *)
Inductive signal :=
| Proceed
| TimedOut
| Returned (result : option Dict)
| Raised (e : string)
| RaisedBase (e : string).

Record env := Env {
  time_time : Qc;
  datetime_now : Z;
  wake : signal
}.

(** [result.get('candidates_found', 0) if result else 0] *)
Definition found (result : option Dict) : value :=
  match result with
  | Some d => if bool_decide (size d = 0) then VInt 0
              else default (VInt 0) (d !! "candidates_found")
  | None => VInt 0
  end.

(** The [JobResult] of the [try] block. *)
Definition completed_result (job : JobRequest.t) (result : option Dict)
    (processing_time : Qc) (now : Z) : JobResult.t :=
  JobResult.Make (JobRequest.job_id job) true result None processing_time
    (found result) now.

(** The [JobResult] of the [except Exception as e] block. *)
Definition failed_result (job : JobRequest.t) (e : string)
    (processing_time : Qc) (now : Z) : JobResult.t :=
  JobResult.Make (JobRequest.job_id job) false None
    (Some ("Error processing job " +:+ JobRequest.job_id job +:+ ": " +:+ e))
    processing_time (VInt 0) now.

(** [queue.Queue(maxsize)]: a size of zero or less means no bound. *)
Definition full {A} (maxsize : nat) (q : list A) : bool :=
  bool_decide (0 < maxsize) && bool_decide (maxsize ≤ length q).

(** *** The threaded scheduler: [BatchProcessor] *)

Record Stats := MakeStats {
  jobs_submitted : Z;
  jobs_completed : Z;
  jobs_failed : Z;
  total_processing_time : Qc;
  average_processing_time : Qc
}.

(** Where a worker thread stands in [_worker_loop]; [Unwinding] is the
    [finally] block entered with an exception that no handler took. *)
Inductive worker :=
| AtLoopHead
| Fetching
| Acquiring (job_request : JobRequest.t)
| Processing (job_request : JobRequest.t) (a : agent) (start_time : Qc)
| Releasing (a : agent) (job_result : JobResult.t)
| Unwinding (a : agent)
| Publishing (job_result : JobResult.t)
| Updating (job_result : JobResult.t)
| MarkingDone
| Exited.

Record BatchProcessor := Make {
  max_workers : nat;
  max_queue_size : nat;
  job_queue : list JobRequest.t;
  unfinished_tasks : nat;
  results_queue : list JobResult.t;
  workers : list worker;
  is_running : bool;
  stats : Stats;
  submitting : nat;
  agents_pool : list agent
}.

(** [BatchProcessor.__init__] *)
Definition init (max_workers max_queue_size : nat) : BatchProcessor :=
  Make max_workers max_queue_size [] 0 [] [] false
    (MakeStats 0 0 0 0%Qc 0%Qc) 0 (seq 0 max_workers).

(** [BatchProcessor.start_workers] *)
Definition start_workers (s : BatchProcessor) : BatchProcessor :=
  if is_running s then s
  else Make (max_workers s) (max_queue_size s) (job_queue s) (unfinished_tasks s)
         (results_queue s) (workers s ++ replicate (max_workers s) AtLoopHead)
         true (stats s) (submitting s) (agents_pool s).

(** [BatchProcessor.stop_workers]: the flag is cleared and every worker is
    waited for at most 30 seconds; a worker still busy then is left alone. *)
Definition stop_workers (s : BatchProcessor) : BatchProcessor :=
  if is_running s
  then Make (max_workers s) (max_queue_size s) (job_queue s) (unfinished_tasks s)
         (results_queue s) (workers s) false (stats s) (submitting s) (agents_pool s)
  else s.

(** [BatchProcessor.submit_job], up to the return of [job_queue.put]: on a
    full queue the call gives up after 5 seconds and returns [False]. *)
Definition submit_job (job_request : JobRequest.t) (s : BatchProcessor)
  : bool * BatchProcessor :=
  if full (max_queue_size s) (job_queue s) then (false, s)
  else (true,
        Make (max_workers s) (max_queue_size s) (job_queue s ++ [job_request])
          (S (unfinished_tasks s)) (results_queue s) (workers s) (is_running s)
          (stats s) (S (submitting s)) (agents_pool s)).

(** [BatchProcessor.submit_job], the block under [self.lock]. *)
Definition submit_job_count (s : BatchProcessor) : BatchProcessor :=
  match submitting s with
  | O => s
  | S n =>
      let st := stats s in
      Make (max_workers s) (max_queue_size s) (job_queue s) (unfinished_tasks s)
        (results_queue s) (workers s) (is_running s)
        (MakeStats (jobs_submitted st + 1) (jobs_completed st) (jobs_failed st)
           (total_processing_time st) (average_processing_time st))
        n (agents_pool s)
  end.

(** The block under [self.lock] in [_worker_loop], statement by statement. *)
Definition update_stats (job_result : JobResult.t) (st : Stats) : Stats :=
  let st1 := MakeStats (jobs_submitted st) (jobs_completed st + 1) (jobs_failed st)
               (total_processing_time st) (average_processing_time st) in
  let st2 := MakeStats (jobs_submitted st1) (jobs_completed st1) (jobs_failed st1)
               (total_processing_time st1 + JobResult.processing_time job_result)%Qc
               (average_processing_time st1) in
  let st3 :=
    if JobResult.success job_result
    then MakeStats (jobs_submitted st2) (jobs_completed st2 + 1) (jobs_failed st2)
           (total_processing_time st2) (average_processing_time st2)
    else MakeStats (jobs_submitted st2) (jobs_completed st2) (jobs_failed st2 + 1)
           (total_processing_time st2) (average_processing_time st2) in
  let completed := (jobs_completed st3 + jobs_failed st3)%Z in
  if bool_decide (0 < completed)%Z
  then MakeStats (jobs_submitted st3) (jobs_completed st3) (jobs_failed st3)
         (total_processing_time st3)
         (total_processing_time st3 / Qc_of_Z completed)%Qc
  else st3.

Definition with_worker (i : nat) (w : worker) (s : BatchProcessor) : BatchProcessor :=
  Make (max_workers s) (max_queue_size s) (job_queue s) (unfinished_tasks s)
    (results_queue s) (<[i := w]> (workers s)) (is_running s) (stats s)
    (submitting s) (agents_pool s).

Definition with_job_queue (q : list JobRequest.t) (s : BatchProcessor) : BatchProcessor :=
  Make (max_workers s) (max_queue_size s) q (unfinished_tasks s)
    (results_queue s) (workers s) (is_running s) (stats s)
    (submitting s) (agents_pool s).

Definition with_agents_pool (p : list agent) (s : BatchProcessor) : BatchProcessor :=
  Make (max_workers s) (max_queue_size s) (job_queue s) (unfinished_tasks s)
    (results_queue s) (workers s) (is_running s) (stats s)
    (submitting s) p.

Definition with_results_queue (r : list JobResult.t) (s : BatchProcessor) : BatchProcessor :=
  Make (max_workers s) (max_queue_size s) (job_queue s) (unfinished_tasks s)
    r (workers s) (is_running s) (stats s) (submitting s) (agents_pool s).

Definition with_stats (st : Stats) (s : BatchProcessor) : BatchProcessor :=
  Make (max_workers s) (max_queue_size s) (job_queue s) (unfinished_tasks s)
    (results_queue s) (workers s) (is_running s) st (submitting s) (agents_pool s).

Definition with_unfinished_tasks (n : nat) (s : BatchProcessor) : BatchProcessor :=
  Make (max_workers s) (max_queue_size s) (job_queue s) n
    (results_queue s) (workers s) (is_running s) (stats s)
    (submitting s) (agents_pool s).

(** One step of worker [i] through [BatchProcessor._worker_loop].  A step
    that cannot be taken (a blocking call that is neither served nor timed
    out) leaves the state as it is.  The inner handler is [except Exception]:
    an exception outside [Exception] runs the [finally] block, passes the
    two outer handlers as well and ends the thread, with no [JobResult] and
    no [task_done]. *)
Definition _worker_loop (i : nat) (e : env) (s : BatchProcessor) : BatchProcessor :=
  match workers s !! i with
  | None => s
  | Some AtLoopHead =>
      (* while self.is_running: *)
      with_worker i (if is_running s then Fetching else Exited) s
  | Some Fetching =>
      (* job_request = self.job_queue.get(timeout=1) *)
      match job_queue s, wake e with
      | job_request :: q, _ => with_worker i (Acquiring job_request) (with_job_queue q s)
      | [], TimedOut => with_worker i AtLoopHead s   (* except Empty: continue *)
      | [], _ => s
      end
  | Some (Acquiring job_request) =>
      (* agent = self.agents_pool.get(timeout=5) *)
      match agents_pool s, wake e with
      | a :: p, _ =>
          with_worker i (Processing job_request a (time_time e)) (with_agents_pool p s)
      | [], TimedOut => with_worker i AtLoopHead s   (* except Empty: continue *)
      | [], _ => s
      end
  | Some (Processing job_request a start_time) =>
      (* result = self._process_job(agent, job_request) *)
      let processing_time := (time_time e - start_time)%Qc in
      match wake e with
      | Returned result =>
          with_worker i
            (Releasing a (completed_result job_request result processing_time
                            (datetime_now e))) s
      | Raised msg =>
          (* except Exception as e: *)
          with_worker i
            (Releasing a (failed_result job_request msg processing_time
                            (datetime_now e))) s
      | RaisedBase _ => with_worker i (Unwinding a) s
      | _ => s
      end
  | Some (Releasing a job_result) =>
      (* finally: self.agents_pool.put(agent) *)
      if full (max_workers s) (agents_pool s) then s
      else with_worker i (Publishing job_result)
             (with_agents_pool (agents_pool s ++ [a]) s)
  | Some (Unwinding a) =>
      (* finally: self.agents_pool.put(agent), then out of the loop *)
      if full (max_workers s) (agents_pool s) then s
      else with_worker i Exited (with_agents_pool (agents_pool s ++ [a]) s)
  | Some (Publishing job_result) =>
      (* self.results_queue.put(job_result) *)
      with_worker i (Updating job_result)
        (with_results_queue (results_queue s ++ [job_result]) s)
  | Some (Updating job_result) =>
      (* with self.lock: ... *)
      with_worker i MarkingDone (with_stats (update_stats job_result (stats s)) s)
  | Some MarkingDone =>
      (* self.job_queue.task_done(); a ValueError is caught by the outer
         except Exception: continue *)
      with_worker i AtLoopHead (with_unfinished_tasks (pred (unfinished_tasks s)) s)
  | Some Exited => s
  end.

Inductive event :=
| StartWorkers
| StopWorkers
| SubmitJob (job_request : JobRequest.t)
| SubmitJobCount
| WorkerStep (i : nat) (e : env).

Definition step (s : BatchProcessor) (ev : event) : BatchProcessor :=
  match ev with
  | StartWorkers => start_workers s
  | StopWorkers => stop_workers s
  | SubmitJob job_request => (submit_job job_request s).2
  | SubmitJobCount => submit_job_count s
  | WorkerStep i e => _worker_loop i e s
  end.

Definition run (s : BatchProcessor) (evs : list event) : BatchProcessor :=
  foldl step s evs.

(** The agents that are checked out, with the worker that owns each. *)
Definition holds (w : worker) : list agent :=
  match w with
  | Processing _ a _ | Releasing a _ | Unwinding a => [a]
  | _ => []
  end.

Definition checked_out (s : BatchProcessor) : list agent :=
  mbind holds (workers s).

(** [BatchProcessor.wait_for_completion] returns when [job_queue.join()]
    does: every job put on the queue has been marked done. *)
Definition drained (s : BatchProcessor) : bool :=
  bool_decide (unfinished_tasks s = 0).

(** *** The cooperative scheduler: [AsyncBatchProcessor] *)

Inductive task :=
| Waiting (job_request : JobRequest.t)
| InExecutor (job_request : JobRequest.t) (a : agent) (start_time : Qc)
| Finished.

Record AsyncBatchProcessor := MakeAsync {
  max_concurrent : nat;
  semaphore : nat;
  jobs : list JobRequest.t;
  results : list JobResult.t;
  agents : list agent;
  tasks : list task
}.

(** [AsyncBatchProcessor.__init__] *)
Definition async_init (max_concurrent : nat) : AsyncBatchProcessor :=
  MakeAsync max_concurrent max_concurrent [] [] (seq 0 max_concurrent) [].

(** [AsyncBatchProcessor.process_jobs], up to [asyncio.gather]. *)
Definition process_jobs (job_requests : list JobRequest.t) (s : AsyncBatchProcessor)
  : AsyncBatchProcessor :=
  MakeAsync (max_concurrent s) (semaphore s) job_requests [] (agents s)
    (Waiting <$> job_requests).

(** One step of task [i] through [_process_job_async]: from the entry of
    [async with self.semaphore] to the [await], and from the wake-up of the
    [await] to the end.  An exception outside [Exception] stops the event
    loop: the task takes no step on it. *)
Definition _process_job_async (i : nat) (e : env) (s : AsyncBatchProcessor)
  : AsyncBatchProcessor :=
  match tasks s !! i with
  | None | Some Finished => s
  | Some (Waiting job_request) =>
      match semaphore s with
      | O => s
      | S n =>
          let start_time := time_time e in
          match length (agents s) with
          | O =>
              (* len(self.results) % len(self.agents): ZeroDivisionError *)
              MakeAsync (max_concurrent s) (S n) (jobs s)
                (results s ++ [failed_result job_request "integer modulo by zero"
                                 (time_time e - start_time)%Qc (datetime_now e)])
                (agents s) (<[i := Finished]> (tasks s))
          | S _ =>
              match agents s !! (length (results s) `mod` length (agents s)) with
              | Some a =>
                  MakeAsync (max_concurrent s) n (jobs s) (results s) (agents s)
                    (<[i := InExecutor job_request a start_time]> (tasks s))
              | None => s
              end
          end
      end
  | Some (InExecutor job_request a start_time) =>
      let processing_time := (time_time e - start_time)%Qc in
      match wake e with
      | Returned result =>
          MakeAsync (max_concurrent s) (S (semaphore s)) (jobs s)
            (results s ++ [completed_result job_request result processing_time
                             (datetime_now e)])
            (agents s) (<[i := Finished]> (tasks s))
      | Raised msg =>
          MakeAsync (max_concurrent s) (S (semaphore s)) (jobs s)
            (results s ++ [failed_result job_request msg processing_time
                             (datetime_now e)])
            (agents s) (<[i := Finished]> (tasks s))
      | _ => s
      end
  end.

Definition async_run (s : AsyncBatchProcessor) (evs : list (nat * env))
  : AsyncBatchProcessor :=
  foldl (λ s ev, _process_job_async ev.1 ev.2 s) s evs.

(** The agents in use, one entry per task that is running on one. *)
Definition in_use (t : task) : list agent :=
  match t with
  | InExecutor _ a _ => [a]
  | _ => []
  end.

Definition async_checked_out (s : AsyncBatchProcessor) : list agent :=
  mbind in_use (tasks s).


(** The pool and the workers together hold the agents that [__init__]
    made, each of them once. *)
Definition pool_inv (s : BatchProcessor) : Prop :=
  agents_pool s ++ checked_out s ≡ₚ seq 0 (max_workers s).

(** The job a worker has taken from the queue and has not published yet. *)
Definition carried (w : worker) : list string :=
  match w with
  | Acquiring job_request | Processing job_request _ _ =>
      [JobRequest.job_id job_request]
  | Releasing _ job_result | Publishing job_result =>
      [JobResult.job_id job_result]
  | _ => []
  end.

(** The jobs the scheduler holds: queued, with a worker, or answered. *)
Definition in_system (s : BatchProcessor) : list string :=
  (JobRequest.job_id <$> job_queue s) ++ mbind carried (workers s) ++
  (JobResult.job_id <$> results_queue s).

(** The job an event brings in: [submit_job] returned [True]. *)
Definition accepted (s : BatchProcessor) (ev : event) : list string :=
  match ev with
  | SubmitJob job_request =>
      if (submit_job job_request s).1 then [JobRequest.job_id job_request] else []
  | _ => []
  end.

(** The job an event loses: [agents_pool.get] raised [Empty], or the unit
    of work raised an exception that [except Exception] does not take. *)
Definition lost (s : BatchProcessor) (ev : event) : list string :=
  match ev with
  | WorkerStep i e =>
      match workers s !! i, agents_pool s, wake e with
      | Some (Acquiring job_request), [], TimedOut => [JobRequest.job_id job_request]
      | Some (Processing job_request _ _), _, RaisedBase _ =>
          [JobRequest.job_id job_request]
      | _, _, _ => []
      end
  | _ => []
  end.

(** The jobs accepted and the jobs lost along a run. *)
Fixpoint ledger (s : BatchProcessor) (evs : list event) : list string * list string :=
  match evs with
  | [] => ([], [])
  | ev :: evs' =>
      let l := ledger (step s ev) evs' in
      (accepted s ev ++ l.1, lost s ev ++ l.2)
  end.



(** Runs to evaluate the schedulers on. *)
Definition job (id : string) : JobRequest.t :=
  JobRequest.Make id "Senior Backend Engineer" None None None 20 1 0.

Definition at_time (t : Z) (sg : signal) : env := Env (Qc_of_Z t) t sg.

(** One job through a scheduler with one worker. *)
Definition one_job : list event :=
  [ StartWorkers; SubmitJob (job "j1"); SubmitJobCount;
    WorkerStep 0 (at_time 0 Proceed);            (* while self.is_running *)
    WorkerStep 0 (at_time 0 Proceed);            (* job_queue.get *)
    WorkerStep 0 (at_time 0 Proceed);            (* agents_pool.get *)
    WorkerStep 0 (at_time 1 (Returned None));    (* _process_job returns *)
    WorkerStep 0 (at_time 1 Proceed);            (* agents_pool.put *)
    WorkerStep 0 (at_time 1 Proceed);            (* results_queue.put *)
    WorkerStep 0 (at_time 1 Proceed);            (* with self.lock *)
    WorkerStep 0 (at_time 1 Proceed) ].          (* task_done *)

(** The worker of a scheduler with one agent has taken the job "j1" and
    the agent. *)
Definition busy : list event :=
  [ StartWorkers; SubmitJob (job "j1"); SubmitJobCount;
    WorkerStep 0 (at_time 0 Proceed);
    WorkerStep 0 (at_time 0 Proceed);
    WorkerStep 0 (at_time 0 Proceed) ].

(** The scheduler is stopped while its worker is busy with "j1", and
    started again; the second worker takes "j2" and finds the pool empty
    for 5 seconds. *)
Definition restart_while_busy : list event :=
  busy ++
  [ StopWorkers;                                 (* join(timeout=30) gives up *)
    StartWorkers;                                (* worker 1 is added *)
    SubmitJob (job "j2"); SubmitJobCount;
    WorkerStep 1 (at_time 31 Proceed);
    WorkerStep 1 (at_time 31 Proceed);           (* worker 1 takes "j2" *)
    WorkerStep 1 (at_time 36 TimedOut);          (* agents_pool.get: Empty *)
    WorkerStep 0 (at_time 40 (Returned None));
    WorkerStep 0 (at_time 40 Proceed);
    WorkerStep 0 (at_time 40 Proceed);
    WorkerStep 0 (at_time 40 Proceed);
    WorkerStep 0 (at_time 40 Proceed);
    WorkerStep 0 (at_time 41 Proceed);           (* both workers poll the *)
    WorkerStep 1 (at_time 41 Proceed);           (* empty queue again *)
    WorkerStep 0 (at_time 42 TimedOut);
    WorkerStep 1 (at_time 42 TimedOut) ].

(** The unit of work of "j1" calls [sys.exit()]: the worker puts the agent
    back and its thread ends. *)
Definition unit_of_work_exits : list event :=
  busy ++
  [ WorkerStep 0 (at_time 1 (RaisedBase "SystemExit"));
    WorkerStep 0 (at_time 1 Proceed) ].               (* agents_pool.put *)

(** *** The other methods of [BatchProcessor] *)

(** [BatchProcessor.get_result]: the oldest result, or [None] when the
    results queue stays empty for the time-out. *)
Definition get_result (s : BatchProcessor) : option JobResult.t * BatchProcessor :=
  match results_queue s with
  | [] => (None, s)
  | result :: q => (Some result, with_results_queue q s)
  end.

(** [BatchProcessor.get_all_results]; [fuel] bounds the turns of
    [while True], and [None] says that it did not suffice. *)
Fixpoint get_all_results_loop (fuel : nat) (results : list JobResult.t)
    (s : BatchProcessor) : option (list JobResult.t * BatchProcessor) :=
  match fuel with
  | O => None
  | S fuel' =>
      match get_result s with
      | (None, s') => Some (results, s')
      | (Some result, s') => get_all_results_loop fuel' (results ++ [result]) s'
      end
  end.

Definition get_all_results (fuel : nat) (s : BatchProcessor)
  : option (list JobResult.t * BatchProcessor) :=
  get_all_results_loop fuel [] s.

(** [Thread.is_alive()]: started and not yet out of [_worker_loop]. *)
Definition is_alive (w : worker) : bool :=
  match w with
  | Exited => false
  | _ => true
  end.

(** [BatchProcessor.get_stats] *)
Record stats_report := StatsReport {
  snapshot : Stats;
  queue_size : nat;
  results_queue_size : nat;
  active_workers : nat
}.

Definition get_stats (s : BatchProcessor) : stats_report :=
  StatsReport (stats s) (length (job_queue s)) (length (results_queue s))
    (length (filter (λ w, is_alive w = true) (workers s))).

(** A worker that has taken a job and has not called [task_done] for it. *)
Definition unmarked (w : worker) : list () :=
  match w with
  | Acquiring _ | Processing _ _ _ | Releasing _ _ | Publishing _ | Updating _
  | MarkingDone => [()]
  | _ => []
  end.

(** The result a worker has published and not yet counted. *)
Definition uncounted (w : worker) : list JobResult.t :=
  match w with
  | Updating job_result => [job_result]
  | _ => []
  end.

Definition successes (l : list JobResult.t) : nat :=
  length (filter (λ r, JobResult.success r = true) l).

Definition failures (l : list JobResult.t) : nat :=
  length (filter (λ r, JobResult.success r = false) l).

(** The job an event puts on the queue and the job it hands to a worker. *)
Definition enqueued (s : BatchProcessor) (ev : event) : list JobRequest.t :=
  match ev with
  | SubmitJob job_request => if (submit_job job_request s).1 then [job_request] else []
  | _ => []
  end.

Definition handed (s : BatchProcessor) (ev : event) : list JobRequest.t :=
  match ev with
  | WorkerStep i _ =>
      match workers s !! i, job_queue s with
      | Some Fetching, job_request :: _ => [job_request]
      | _, _ => []
      end
  | _ => []
  end.

(** The jobs put on the queue and the jobs handed to workers along a run,
    each in the order of the events. *)
Fixpoint handoffs (s : BatchProcessor) (evs : list event)
  : list JobRequest.t * list JobRequest.t :=
  match evs with
  | [] => ([], [])
  | ev :: evs' =>
      let h := handoffs (step s ev) evs' in
      (enqueued s ev ++ h.1, handed s ev ++ h.2)
  end.


(** The counters against the results queue, the results that a worker has
    published and not yet counted left aside. *)
Definition counters_inv (s : BatchProcessor) : Prop :=
  let pending := mbind uncounted (workers s) in
  (jobs_failed (stats s) + Z.of_nat (failures pending) =
   Z.of_nat (failures (results_queue s)))%Z ∧
  (jobs_completed (stats s) + Z.of_nat (length pending) +
   Z.of_nat (successes pending) =
   Z.of_nat (length (results_queue s)) + Z.of_nat (successes (results_queue s)))%Z.

(** [jobs_failed] lies between 0 and [jobs_completed], and the average is
    the total time over the sum of the two once that sum is not 0. *)
Definition average_inv (st : Stats) : Prop :=
  (jobs_failed st ≤ jobs_completed st)%Z ∧ (0 ≤ jobs_failed st)%Z ∧
  ((jobs_completed st + jobs_failed st = 0)%Z ∨
   average_processing_time st =
     (total_processing_time st /
      Qc_of_Z (jobs_completed st + jobs_failed st))%Qc).

(** The semaphore and the agents of the cooperative scheduler. *)
Definition gate_inv (C : nat) (s : AsyncBatchProcessor) : Prop :=
  agents s = seq 0 C ∧
  semaphore s + length (async_checked_out s) = C ∧
  Forall (λ a, a < C) (async_checked_out s).

End Batch.

(** ** Properties of the cache store *)

Module CacheProperties.
Import SmartCache.

(** Unfold an operation down to the clock, the storage layer and the table. *)
Ltac run_ops :=
  unfold SmartCache.get, SmartCache.set, SmartCache.delete, clear_expired,
    cleanup_old_cache, get_cache_stats, try_except, sqlite3_connect,
    cursor_execute, conn_commit, conn_close, storage_call, datetime_now, logger,
    read_table, write_table, with_table, datetime_add, dumps, loads, raise,
    mbind, M_bind, mret, M_ret;
  cbn.

(** Case analysis on the outcome of every call into the storage layer. *)
Ltac case_faults :=
  repeat match goal with
         | |- context [faults ?w ?k] => destruct (faults w k) eqn:?; cbn
         end.

(** The call [k] that failed is none of the calls known to have succeeded. *)
Ltac fault_free k Hs :=
  repeat match goal with
         | H : faults _ ?j = None |- _ =>
             destruct (decide (k = j)) as [->|];
             [rewrite H in Hs; by destruct Hs | revert H]
         end;
  intros; lia.



Section Props.
Variable md5_hexdigest : string → string.
Variable payload : Type.
Variable json_dumps : payload → option string.
Variable json_loads : string → option payload.

Local Abbreviation key := (_generate_cache_key md5_hexdigest).
Local Abbreviation get := (get md5_hexdigest json_loads).
Local Abbreviation set := (set md5_hexdigest json_dumps).
Local Abbreviation delete := (SmartCache.delete md5_hexdigest).

(** What a [set] that meets no error leaves behind. *)
Lemma set_healthy data_type identifier data custom text w :
  healthy w →
  json_dumps data = Some text →
  let expires := (clock w (reads w) +
                  expiration_hours data_type custom * microseconds_per_hour)%Z in
  representable expires →
  let w' := (set data_type identifier data custom w).2 in
  (set data_type identifier data custom w).1 = Ok () ∧
  table w' = <[key data_type identifier :=
                 Row text data_type (clock w (S (reads w))) expires 0
                   (clock w (S (S (reads w))))]> (table w) ∧
  reads w' = S (S (S (reads w))) ∧ clock w' = clock w ∧ faults w' = faults w.
Proof.
  intros Hh Hd expires Hr. run_ops.
  rewrite !Hh. cbn. fold expires.
  destruct (decide (representable expires)); [|done]. cbn.
  rewrite Hd. cbn. repeat (rewrite !Hh; cbn). done.
Qed.

(** A [get] that meets no error finds a line that has not expired. *)
Lemma get_hit data_type identifier w r p :
  healthy w →
  table w !! key data_type identifier = Some r →
  (clock w (reads w) < expires_at r)%Z →
  json_loads (data r) = Some p →
  (get data_type identifier w).1 = Ok (Some p).
Proof.
  intros Hh Hl Hlt Hp. run_ops. rewrite !Hh. cbn.
  unfold select_valid. rewrite Hl. cbn.
  rewrite bool_decide_eq_true_2 by done. cbn.
  repeat (rewrite !Hh; cbn). rewrite Hp. done.
Qed.

(** C3, as amended: for the payloads that JSON gives back.
    [set(namespace, identifier, payload)] followed at once by
    [get(namespace, identifier)] returns the payload that was stored, for a
    payload that [json.dumps] serialises and that [json.loads] reads back
    from that text as it was: the storage layer answers, and the clock read
    by [get] has not reached the expiration, which is the time read by
    [set] plus the default time-to-live of the namespace. *)
Theorem set_then_get_returns_payload data_type identifier (data : payload) w :
  healthy w →
  is_Some (json_dumps data) →
  (∀ text, json_dumps data = Some text → json_loads text = Some data) →
  let expires := (clock w (reads w) +
                  default 24 (expiration_times !! data_type) * microseconds_per_hour)%Z in
  representable expires →
  let w1 := (set data_type identifier data None w).2 in
  (clock w1 (reads w1) < expires)%Z →
  (get data_type identifier w1).1 = Ok (Some data).
Proof.
  intros Hh [text Hd] Hrt expires Hr w1 Hlt.
  destruct (set_healthy data_type identifier data None text w Hh Hd Hr)
    as (_ & Ht & Hreads & Hclock & Hf).
  fold w1 in Ht, Hreads, Hclock, Hf.
  eapply get_hit.
  - intros k. rewrite Hf. apply Hh.
  - rewrite Ht. apply lookup_insert_eq.
  - exact Hlt.
  - cbn. by apply Hrt.
Qed.

(** C4. [get] returns a miss when the key has no line or when the
    expiration of its line is not strictly after the time read, and then it
    leaves the table as it was, so the expired line stays; a line whose
    expiration is strictly after the time read is a hit. *)
Theorem get_misses_absent_or_expired data_type identifier w :
  let now := clock w (reads w) in
  ((table w !! key data_type identifier = None ∨
    ∃ r, table w !! key data_type identifier = Some r ∧ (expires_at r ≤ now)%Z) →
   (get data_type identifier w).1 = Ok None ∧
   table (get data_type identifier w).2 = table w) ∧
  (∀ r p, healthy w →
     table w !! key data_type identifier = Some r →
     (now < expires_at r)%Z →
     json_loads (data r) = Some p →
     (get data_type identifier w).1 = Ok (Some p)).
Proof.
  intros now. split.
  - intros H.
    assert (Hsel : select_valid (key data_type identifier) now (table w) = None).
    { unfold select_valid. destruct H as [-> | (r & -> & Hr)]; [done|].
      cbn. rewrite bool_decide_eq_false_2; [done | lia]. }
    run_ops. case_faults; try done.
    all: fold now; rewrite Hsel; cbn.
    all: case_faults; done.
  - intros r p Hh Hl Hlt Hp. by eapply get_hit.
Qed.

(** C5. [clear_expired] returns the number of lines whose expiration is at
    or before the time it reads, the table afterwards holds exactly the
    other lines, each of them is still returned by [get] while it has not
    expired, and on a table with 3 expired and 2 valid lines the result is
    3 and 2 lines remain. *)
Theorem clear_expired_removes_exactly_expired w :
  healthy w →
  let now := clock w (reads w) in
  let w' := (clear_expired w).2 in
  let expired := filter (λ kr, (expires_at kr.2 ≤ now)%Z) (table w) in
  let valid := filter (λ kr, ¬ (expires_at kr.2 ≤ now)%Z) (table w) in
  (clear_expired w).1 = Ok (size expired) ∧
  (∀ k r, table w' !! k = Some r ↔
          table w !! k = Some r ∧ ¬ (expires_at r ≤ now)%Z) ∧
  (∀ data_type identifier r p,
     table w !! key data_type identifier = Some r →
     (now < expires_at r)%Z →
     (clock w' (reads w') < expires_at r)%Z →
     json_loads (data r) = Some p →
     (get data_type identifier w').1 = Ok (Some p)) ∧
  (size expired = 3 → size valid = 2 →
   (clear_expired w).1 = Ok 3 ∧ size (table w') = 2).
Proof.
  intros Hh now w' expired valid.
  assert (Hres : (clear_expired w).1 = Ok (size expired) ∧ table w' = valid ∧
                 faults w' = faults w).
  { subst w'. run_ops. repeat (rewrite !Hh; cbn). done. }
  destruct Hres as (Hres & Ht & Hf).
  split_and!.
  - done.
  - intros k r. rewrite Ht. unfold valid. rewrite map_lookup_filter_Some. done.
  - intros data_type identifier r p Hl Hnow Hlt Hp.
    eapply get_hit; [| |exact Hlt|exact Hp].
    + intros k. rewrite Hf. apply Hh.
    + rewrite Ht. unfold valid. rewrite map_lookup_filter_Some. cbn.
      split; [done|lia].
  - intros H3 H2. rewrite Hres, Ht, H3, H2. done.
Qed.

(** C6, as amended. A [set] that meets no error replaces whatever line the
    key had and leaves the other keys alone; the expiration of the new line
    is the time read plus the override when an override other than 0 is
    given, and the time read plus the default of the namespace (24 hours
    for a namespace without one) when no override or the override 0 is
    given. *)
Theorem set_overwrites_and_dates_expiry data_type identifier data custom text w :
  healthy w →
  json_dumps data = Some text →
  let now := clock w (reads w) in
  let default_hours := default 24%Z (expiration_times !! data_type) in
  ∀ hours,
    (custom = Some hours ∧ hours ≠ 0%Z) ∨
    ((custom = None ∨ custom = Some 0%Z) ∧ hours = default_hours) →
    representable (now + hours * microseconds_per_hour) →
    let w' := (set data_type identifier data custom w).2 in
    table w' !! key data_type identifier =
      Some (Row text data_type (clock w (S (reads w)))
              (now + hours * microseconds_per_hour) 0 (clock w (S (S (reads w))))) ∧
    (∀ k, k ≠ key data_type identifier → table w' !! k = table w !! k).
Proof.
  intros Hh Hd now default_hours hours Hc Hr w'.
  assert (Hhours : expiration_hours data_type custom = hours).
  { unfold expiration_hours.
    destruct Hc as [[-> Hne] | [[-> | ->] ->]]; [|done|done].
    by destruct (decide (hours = 0%Z)). }
  destruct (set_healthy data_type identifier data custom text w Hh Hd)
    as (_ & Ht & _).
  { by rewrite Hhours. }
  fold w' in Ht. rewrite Ht, Hhours. split.
  - apply lookup_insert_eq.
  - intros k Hk. by apply lookup_insert_ne.
Qed.

(** C7. No operation of the cache raises, whatever the storage layer does:
    each returns a value.  When a call into the storage layer fails, [get]
    returns a miss, [set] returns after logging the error, and
    [clear_expired] returns 0. *)
Theorem cache_operations_never_raise data_type identifier (data : payload)
    custom days_old w :
  ((∃ r, (get data_type identifier w).1 = Ok r) ∧
   (set data_type identifier data custom w).1 = Ok () ∧
   (delete data_type identifier w).1 = Ok () ∧
   (∃ n, (clear_expired w).1 = Ok n) ∧
   (∃ n, (cleanup_old_cache days_old w).1 = Ok n) ∧
   (∃ r, (get_cache_stats w).1 = Ok r)) ∧
  (storage_failed w (get data_type identifier w).2 →
   (get data_type identifier w).1 = Ok None) ∧
  (storage_failed w (set data_type identifier data custom w).2 →
   (set data_type identifier data custom w).1 = Ok () ∧
   ∃ msg, last (log (set data_type identifier data custom w).2) =
            Some (ERROR, "Error setting cache: " +:+ msg)) ∧
  (storage_failed w (clear_expired w).2 → (clear_expired w).1 = Ok 0).
Proof.
  split_and!.
  - run_ops. repeat (case_match; cbn; simplify_eq/=); eauto.
  - run_ops. repeat (case_match; cbn; simplify_eq/=); eauto.
  - run_ops. repeat (case_match; cbn; simplify_eq/=); eauto.
  - run_ops. repeat (case_match; cbn; simplify_eq/=); eauto.
  - run_ops. repeat (case_match; cbn; simplify_eq/=); eauto.
  - run_ops. repeat (case_match; cbn; simplify_eq/=); eauto.
  - intros (k & Hk & Hs). revert Hk. run_ops.
    repeat (case_match; cbn; simplify_eq/=); intros Hk; try done;
      fault_free k Hs.
  - intros (k & Hk & Hs). revert Hk. run_ops.
    repeat (case_match; cbn; simplify_eq/=); intros Hk;
      first [ by (split; [done | eexists; apply last_snoc]) | fault_free k Hs ].
  - intros (k & Hk & Hs). revert Hk. run_ops.
    repeat (case_match; cbn; simplify_eq/=); intros Hk; try done;
      fault_free k Hs.
Qed.


End Props.

(** C3, as stated, fails: a tuple is a payload that [json.dumps]
    serialises, as the array "[1, 2]", and [get] right after the [set], with
    the storage layer answering and the line not expired, returns the list
    that [json.loads] reads from it, which is not the tuple. *)
Lemma set_then_get_turns_tuple_into_list :
  healthy world0 ∧
  py_dumps (PyTuple [PyInt 1; PyInt 2]) = Some "[1, 2]" ∧
  (SmartCache.get (λ s, s) py_loads "search_results" "q" world_tuple).1
    = Ok (Some (PyList [PyInt 1; PyInt 2])) ∧
  (SmartCache.get (λ s, s) py_loads "search_results" "q" world_tuple).1
    ≠ Ok (Some (PyTuple [PyInt 1; PyInt 2])).
Proof. split; [intros k; reflexivity | by vm_compute]. Qed.

Lemma set_then_get_returns_payload_witness :
  (SmartCache.get (λ s, s) py_loads "search_results" "q"
     (SmartCache.set (λ s, s) py_dumps "search_results" "q"
        (PyList [PyInt 1; PyInt 2]) None world0).2).1
  = Ok (Some (PyList [PyInt 1; PyInt 2])).
Proof.
  apply (set_then_get_returns_payload (λ s, s) pyvalue py_dumps py_loads
           "search_results" "q" (PyList [PyInt 1; PyInt 2]) world0).
  - intros k. reflexivity.
  - eexists. reflexivity.
  - intros text H. vm_compute in H. injection H as <-. reflexivity.
  - by vm_compute.
  - by vm_compute.
Defined.

Lemma get_misses_absent_or_expired_witness :
  (SmartCache.get (λ s, s) Some "search_results" "a" world5).1 = Ok None ∧
  (SmartCache.get (λ s, s) Some "search_results" "q" world1).1 = Ok (Some "[0]").
Proof.
  split.
  - apply (get_misses_absent_or_expired (λ s, s) string Some
             "search_results" "a" world5).
    right. exists (entry 10). split; by vm_compute.
  - apply (get_misses_absent_or_expired (λ s, s) string Some
             "search_results" "q" world1)
      with (r := Row "[0]" "search_results" 0 50 7 3).
    + intros k. reflexivity.
    + by vm_compute.
    + by vm_compute.
    + reflexivity.
Defined.

Lemma clear_expired_removes_exactly_expired_witness :
  (clear_expired world5).1 = Ok 3 ∧ size (table (clear_expired world5).2) = 2.
Proof.
  apply (clear_expired_removes_exactly_expired (λ s, s) string Some world5).
  - intros k. reflexivity.
  - by vm_compute.
  - by vm_compute.
Defined.

(** C6, as stated, fails: with the override 0 the line stored at time 0 for
    a search result expires after the 2 hours of the namespace, not at
    time 0 plus 0 hours. *)
Lemma set_zero_override_keeps_default :
  expires_at <$> table world_zero_override !! "search_results:q"
    = Some (2 * microseconds_per_hour)%Z ∧
  expires_at <$> table world_zero_override !! "search_results:q"
    ≠ Some (clock world0 (reads world0) +
            spec_expiration_hours "search_results" (Some 0%Z) *
            microseconds_per_hour)%Z.
Proof. by vm_compute. Qed.

Lemma set_overwrites_and_dates_expiry_witness :
  table (SmartCache.set (λ s, s) Some "search_results" "q" "[1]" (Some 5%Z) world1).2
    !! "search_results:q"
  = Some (Row "[1]" "search_results" 1 (0 + 5 * microseconds_per_hour) 0 2).
Proof.
  apply (set_overwrites_and_dates_expiry (λ s, s) string Some
           "search_results" "q" "[1]" (Some 5%Z) "[1]" world1).
  - intros k. reflexivity.
  - reflexivity.
  - left. by split.
  - by vm_compute.
Defined.

Lemma cache_operations_never_raise_witness :
  (SmartCache.get (λ s, s) Some "search_results" "q" world_down).1 = Ok None.
Proof.
  apply (cache_operations_never_raise (λ s, s) string Some Some
           "search_results" "q" "[1]" None 7%Z world_down).
  exists 0. split; [by vm_compute | by eexists].
Defined.


End CacheProperties.

(** ** Properties of the schedulers *)

Module BatchProperties.
Import Batch.

(** Replacing one element of a list moves what it contributes to a bind. *)
Lemma bind_insert_perm {A B} (f : A → list B) (l : list A) i x y :
  l !! i = Some x →
  f x ++ mbind f (<[i := y]> l) ≡ₚ f y ++ mbind f l.
Proof.
  intros Hi.
  rewrite insert_take_drop by (by eapply lookup_lt_Some).
  rewrite <- (take_drop_middle l i x Hi) at 3.
  rewrite !bind_app, !bind_cons. solve_Permutation.
Qed.

Lemma bind_insert_same {A B} (f : A → list B) (l : list A) i x y :
  l !! i = Some x → f y = f x →
  mbind f (<[i := y]> l) = mbind f l.
Proof.
  intros Hi Hf.
  rewrite insert_take_drop by (by eapply lookup_lt_Some).
  rewrite <- (take_drop_middle l i x Hi) at 3.
  rewrite !bind_app, !bind_cons. by rewrite Hf.
Qed.

Lemma run_snoc s evs ev : run s (evs ++ [ev]) = step (run s evs) ev.
Proof. unfold run. by rewrite foldl_app. Qed.

Lemma async_run_snoc s evs i e :
  async_run s (evs ++ [(i, e)]) = _process_job_async i e (async_run s evs).
Proof. unfold async_run. by rewrite foldl_app. Qed.

(** *** The pool of the threaded scheduler *)

Lemma pool_inv_init P Q : pool_inv (init P Q).
Proof. unfold pool_inv, checked_out. cbn. by rewrite app_nil_r. Qed.

Lemma pool_inv_step s ev : pool_inv s → pool_inv (step s ev).
Proof.
  unfold pool_inv, checked_out. intros Hinv.
  destruct ev as [| |job| |i e]; cbn.
  - unfold start_workers. destruct (is_running s); [done|]. cbn.
    rewrite bind_app.
    assert (H0 : ∀ n, mbind holds (replicate n AtLoopHead) = []).
    { induction n; [done|]. cbn. done. }
    by rewrite H0, app_nil_r.
  - unfold stop_workers. by destruct (is_running s).
  - unfold submit_job. by destruct (full _ _).
  - unfold submit_job_count. by destruct (submitting s).
  - unfold _worker_loop.
    destruct (workers s !! i) as [w|] eqn:Hw; [|done].
    destruct w; cbn.
    + erewrite bind_insert_same; [done..|]. by destruct (is_running s).
    + destruct (job_queue s), (wake e); cbn; try done;
        erewrite bind_insert_same; done.
    + destruct (agents_pool s) as [|a p] eqn:Hp.
      * destruct (wake e); cbn; rewrite Hp; try done.
        erewrite bind_insert_same; done.
      * pose proof (bind_insert_perm holds _ i _
                      (Processing job_request a (time_time e)) Hw) as HP.
        cbn in HP. destruct (wake e); cbn; rewrite HP, <- Hinv; cbn;
          by rewrite <- Permutation_middle.
    + destruct (wake e); cbn; try done; erewrite bind_insert_same; done.
    + destruct (full _ _); [done|]. cbn.
      pose proof (bind_insert_perm holds _ i _ (Publishing job_result) Hw) as HP.
      cbn in HP. rewrite <- Hinv, <- HP, <- app_assoc. cbn.
      by rewrite <- Permutation_middle.
    + destruct (full _ _); [done|]. cbn.
      pose proof (bind_insert_perm holds _ i _ Exited Hw) as HP.
      cbn in HP. rewrite <- Hinv, <- HP, <- app_assoc. cbn.
      by rewrite <- Permutation_middle.
    + erewrite bind_insert_same; done.
    + erewrite bind_insert_same; done.
    + erewrite bind_insert_same; done.
    + done.
Qed.

Lemma max_workers_step s ev : max_workers (step s ev) = max_workers s.
Proof.
  destruct ev as [| |job| |i e]; cbn.
  - unfold start_workers. by destruct (is_running s).
  - unfold stop_workers. by destruct (is_running s).
  - unfold submit_job. by destruct (full _ _).
  - unfold submit_job_count. by destruct (submitting s).
  - unfold _worker_loop. repeat case_match; done.
Qed.

Lemma pool_inv_run P Q evs :
  pool_inv (run (init P Q) evs) ∧ max_workers (run (init P Q) evs) = P.
Proof.
  induction evs as [|ev evs IH] using rev_ind.
  - split; [apply pool_inv_init | done].
  - rewrite run_snoc. destruct IH as [IH1 IH2]. split.
    + by apply pool_inv_step.
    + by rewrite max_workers_step.
Qed.

Lemma holder_checked_out s i w a :
  workers s !! i = Some w → a ∈ holds w → a ∈ checked_out s.
Proof.
  intros Hw Ha. unfold checked_out. apply list_elem_of_bind.
  exists w. split; [done|]. by eapply list_elem_of_lookup_2.
Qed.

(** While a worker owns an agent, [agents_pool.put] does not block. *)
Lemma pool_has_room s i w a :
  pool_inv s → workers s !! i = Some w → a ∈ holds w →
  full (max_workers s) (agents_pool s) = false.
Proof.
  intros Hinv Hw Ha.
  pose proof (holder_checked_out s i w a Hw Ha) as Hin.
  apply Permutation_length in Hinv.
  rewrite length_app, length_seq in Hinv.
  destruct (checked_out s) as [|b l]; [by apply elem_of_nil in Hin|].
  cbn in Hinv. unfold full.
  rewrite (bool_decide_eq_false_2 (max_workers s ≤ _)) by lia.
  apply andb_false_r.
Qed.

(** X23. In the threaded scheduler an agent is owned by at most one worker, an
    agent that is owned is not in the pool, and at most [max_workers] agents
    are checked out, at every point of every run. *)
Theorem threaded_pool_is_exclusive P Q evs :
  let s := run (init P Q) evs in
  NoDup (checked_out s) ∧ length (checked_out s) ≤ P ∧
  (∀ a, a ∈ checked_out s → a ∉ agents_pool s).
Proof.
  intros s. destruct (pool_inv_run P Q evs) as [Hinv HP]. fold s in Hinv, HP.
  unfold pool_inv in Hinv. rewrite HP in Hinv.
  assert (Hnd : NoDup (agents_pool s ++ checked_out s)).
  { rewrite Hinv. apply NoDup_seq. }
  apply NoDup_app in Hnd as (_ & Hdisj & Hnd).
  split_and!; [done| |].
  - apply Permutation_length in Hinv. rewrite length_app, length_seq in Hinv. lia.
  - intros a Ha Hp. by apply (Hdisj a).
Qed.

(** C8. In any state the threaded scheduler can reach, a worker whose unit
    of work ends goes on to release its agent: when the unit of work raised,
    the result it builds has the id of the job, [success = False] and an
    error text that is not empty; on either outcome the agent is put back at
    the end of the pool, is no longer checked out and serves the next worker
    that asks for one; and the result is the next entry of the results
    queue, after which the worker is back at the head of its loop and
    the other workers are where they were. *)
Theorem failing_job_is_reported_and_agent_returned
    P Q evs i job a start_time e1 e2 e3 e4 e5 :
  let s := run (init P Q) evs in
  workers s !! i = Some (Processing job a start_time) →
  ((∃ result, wake e1 = Returned result) ∨ (∃ msg, wake e1 = Raised msg)) →
  let s1 := _worker_loop i e1 s in
  let s2 := _worker_loop i e2 s1 in
  let s3 := _worker_loop i e3 s2 in
  let s5 := _worker_loop i e5 (_worker_loop i e4 s3) in
  ∃ job_result,
    workers s1 !! i = Some (Releasing a job_result) ∧
    JobResult.job_id job_result = JobRequest.job_id job ∧
    (∀ msg, wake e1 = Raised msg →
       JobResult.success job_result = false ∧
       ∃ err, JobResult.error job_result = Some err ∧ err ≠ EmptyString) ∧
    agents_pool s2 = agents_pool s ++ [a] ∧
    (a ∉ checked_out s2) ∧
    workers s2 !! i = Some (Publishing job_result) ∧
    results_queue s3 = results_queue s ++ [job_result] ∧
    (∀ j job' e, workers s2 !! j = Some (Acquiring job') →
       ∃ a', workers (_worker_loop j e s2) !! j =
               Some (Processing job' a' (time_time e))) ∧
    workers s5 !! i = Some AtLoopHead ∧
    (∀ j, j ≠ i → workers s5 !! j = workers s !! j).
Proof.
  intros s Hw He s1 s2 s3 s5.
  destruct (pool_inv_run P Q evs) as [Hinv HP]. fold s in Hinv, HP.
  pose proof (lookup_lt_Some _ _ _ Hw) as Hlt.
  set (processing_time := (time_time e1 - start_time)%Qc).
  set (job_result :=
         match wake e1 with
         | Returned result =>
             completed_result job result processing_time (datetime_now e1)
         | Raised msg => failed_result job msg processing_time (datetime_now e1)
         | _ => failed_result job EmptyString processing_time (datetime_now e1)
         end).
  assert (Hs1 : s1 = with_worker i (Releasing a job_result) s).
  { subst s1 job_result. unfold _worker_loop. rewrite Hw.
    destruct He as [[r ->] | [m ->]]; done. }
  assert (Hw1 : workers s1 !! i = Some (Releasing a job_result)).
  { rewrite Hs1. cbn. by apply list_lookup_insert_eq. }
  assert (Hinv1 : pool_inv s1) by apply (pool_inv_step s (WorkerStep i e1) Hinv).
  assert (Hroom : full (max_workers s1) (agents_pool s1) = false).
  { eapply pool_has_room; [done..|]. cbn. apply list_elem_of_here. }
  assert (Hs2 : s2 = with_worker i (Publishing job_result)
                       (with_agents_pool (agents_pool s1 ++ [a]) s1)).
  { subst s2. unfold _worker_loop. rewrite Hw1, Hroom. done. }
  assert (Hinv2 : pool_inv s2) by apply (pool_inv_step s1 (WorkerStep i e2) Hinv1).
  assert (Hpool2 : agents_pool s2 = agents_pool s ++ [a]).
  { rewrite Hs2, Hs1. done. }
  assert (Hw2 : workers s2 !! i = Some (Publishing job_result)).
  { rewrite Hs2. cbn. apply list_lookup_insert_eq. rewrite Hs1. cbn.
    by rewrite length_insert. }
  assert (Hs3 : s3 = with_worker i (Updating job_result)
                       (with_results_queue (results_queue s2 ++ [job_result]) s2)).
  { subst s3. unfold _worker_loop. by rewrite Hw2. }
  assert (Hw3 : workers s3 !! i = Some (Updating job_result)).
  { rewrite Hs3. cbn. apply list_lookup_insert_eq. by eapply lookup_lt_Some. }
  pose proof (lookup_lt_Some _ _ _ Hw3) as Hlen3.
  set (s4 := with_worker i MarkingDone
               (with_stats (update_stats job_result (stats s3)) s3)).
  assert (Hs4 : _worker_loop i e4 s3 = s4).
  { unfold _worker_loop. by rewrite Hw3. }
  assert (Hs5 : s5 = with_worker i AtLoopHead
                       (with_unfinished_tasks (pred (unfinished_tasks s4)) s4)).
  { subst s5. rewrite Hs4. unfold _worker_loop. subst s4. cbn.
    by rewrite list_lookup_insert_eq. }
  exists job_result. split_and!.
  - done.
  - subst job_result. by repeat case_match.
  - intros msg Hmsg. subst job_result. rewrite Hmsg. cbn. split; [done|].
    eexists. split; [done|]. done.
  - done.
  - intros Hin.
    assert (Hnd : NoDup (agents_pool s2 ++ checked_out s2)).
    { unfold pool_inv in Hinv2. rewrite Hinv2. apply NoDup_seq. }
    apply NoDup_app in Hnd as (_ & Hdisj & _).
    apply (Hdisj a); [|done]. rewrite Hpool2. apply elem_of_app. right.
    apply list_elem_of_here.
  - done.
  - rewrite Hs3. cbn. rewrite Hs2, Hs1. done.
  - intros j job' e Hj. unfold _worker_loop. rewrite Hj.
    destruct (agents_pool s2) as [|a' p] eqn:Hp.
    + rewrite Hpool2 in Hp. by destruct (agents_pool s).
    + exists a'. cbn. apply list_lookup_insert_eq. by eapply lookup_lt_Some.
  - rewrite Hs5. cbn. apply list_lookup_insert_eq. by rewrite length_insert.
  - intros j Hj. rewrite Hs5. cbn.
    rewrite !list_lookup_insert_ne by done. rewrite Hs3. cbn.
    rewrite list_lookup_insert_ne by done. rewrite Hs2. cbn.
    rewrite list_lookup_insert_ne by done. rewrite Hs1. cbn.
    by rewrite list_lookup_insert_ne.
Qed.

Lemma failing_job_is_reported_and_agent_returned_witness :
  ∃ job_result,
    workers (_worker_loop 0 (at_time 1 (Raised "connection reset"))
               (run (init 1 100) busy)) !! 0
      = Some (Releasing 0 job_result) ∧
    JobResult.success job_result = false.
Proof.
  destruct (failing_job_is_reported_and_agent_returned 1 100 busy 0 (job "j1") 0
              (Qc_of_Z 0) (at_time 1 (Raised "connection reset"))
              (at_time 1 Proceed) (at_time 1 Proceed) (at_time 1 Proceed)
              (at_time 1 Proceed))
    as (job_result & H1 & _ & H3 & _).
  - by vm_compute.
  - right. by eexists.
  - exists job_result. split; [exact H1 | by apply (H3 "connection reset")].
Defined.

(** C9, where the code departs from it. In the cooperative scheduler with
    an admission bound of two or more, the first two tasks to start both take
    the agent at index 0, because no result has been appended yet when
    either of them computes [len(self.results) % len(self.agents)]: the agent
    is in use by two tasks at once. *)
Theorem cooperative_tasks_share_one_agent c job1 job2 rest e1 e2 :
  let s := async_run (process_jobs (job1 :: job2 :: rest) (async_init (S (S c))))
             [(0, e1); (1, e2)] in
  tasks s !! 0 = Some (InExecutor job1 0 (time_time e1)) ∧
  tasks s !! 1 = Some (InExecutor job2 0 (time_time e2)) ∧
  semaphore s = c ∧
  ¬ NoDup (async_checked_out s).
Proof.
  cbn. unfold _process_job_async. cbn.
  rewrite length_seq. repeat (rewrite !Nat.sub_diag; cbn).
  split_and!; [done..|].
  unfold async_checked_out. cbn.
  assert (H0 : ∀ l : list JobRequest.t, mbind in_use (Waiting <$> l) = []).
  { induction l; [done|]. cbn. done. }
  rewrite H0.
  rewrite NoDup_cons. intros [Hin _]. apply Hin. apply list_elem_of_here.
Qed.

(** *** The counters of the threaded scheduler *)

(** C2, where the code departs from it. The block under the lock adds 1 to
    [jobs_completed] before it looks at the outcome and then adds 1 to
    [jobs_completed] or to [jobs_failed]: every job raises the sum of the two
    by 2.  After one submitted job has gone through a worker the sum is 2,
    with one job taken from the queue and [jobs_submitted] equal to 1. *)
Theorem stats_count_each_job_twice :
  (∀ job_result st,
     (jobs_completed (update_stats job_result st) +
      jobs_failed (update_stats job_result st) =
      jobs_completed st + jobs_failed st + 2)%Z) ∧
  let s := run (init 1 100) one_job in
  JobResult.job_id <$> results_queue s = ["j1"] ∧
  job_queue s = [] ∧
  jobs_submitted (stats s) = 1%Z ∧
  (jobs_completed (stats s) + jobs_failed (stats s))%Z = 2%Z.
Proof.
  split.
  - intros job_result st. unfold update_stats.
    destruct (JobResult.success job_result); cbn; case_bool_decide; cbn; lia.
  - by vm_compute.
Qed.

(** *** One result per job *)

Lemma in_system_step s ev :
  in_system (step s ev) ++ lost s ev ≡ₚ in_system s ++ accepted s ev.
Proof.
  unfold in_system.
  destruct ev as [| |job| |i e]; cbn.
  - unfold start_workers. destruct (is_running s); [done|]. cbn.
    rewrite bind_app.
    assert (H0 : ∀ n, mbind carried (replicate n AtLoopHead) = []).
    { induction n; [done|]. cbn. done. }
    rewrite H0. solve_Permutation.
  - unfold stop_workers. by destruct (is_running s).
  - unfold submit_job. destruct (full _ _); [done|]. cbn.
    rewrite fmap_app. cbn. solve_Permutation.
  - unfold submit_job_count. by destruct (submitting s).
  - unfold _worker_loop.
    destruct (workers s !! i) as [w|] eqn:Hw; [|done].
    destruct w; cbn.
    + erewrite bind_insert_same; [done..|]. by destruct (is_running s).
    + destruct (job_queue s) as [|j q] eqn:Hq.
      * destruct (wake e); cbn; rewrite ?Hq; try done;
          erewrite bind_insert_same; done.
      * pose proof (bind_insert_perm carried _ i _ (Acquiring j) Hw) as HP.
        cbn in HP. cbn. rewrite HP. solve_Permutation.
    + destruct (agents_pool s) as [|a p] eqn:Hp.
      * pose proof (bind_insert_perm carried _ i _ AtLoopHead Hw) as HP.
        cbn in HP.
        destruct (wake e); cbn; try done.
        rewrite <- HP. solve_Permutation.
      * cbn. erewrite bind_insert_same; done.
    + pose proof (bind_insert_perm carried _ i _ (Unwinding a) Hw) as HP.
      cbn in HP.
      destruct (wake e); cbn; try (by destruct (agents_pool s));
        try (erewrite bind_insert_same; [by destruct (agents_pool s)|done..]).
      rewrite <- HP. solve_Permutation.
    + destruct (full _ _); [done|]. cbn. erewrite bind_insert_same; done.
    + destruct (full _ _); [done|]. cbn. erewrite bind_insert_same; done.
    + pose proof (bind_insert_perm carried _ i _ (Updating job_result) Hw) as HP.
      cbn in HP. rewrite <- HP. rewrite fmap_app. cbn. solve_Permutation.
    + erewrite bind_insert_same; done.
    + erewrite bind_insert_same; done.
    + done.
Qed.

Lemma in_system_run s evs :
  in_system (run s evs) ++ (ledger s evs).2 ≡ₚ in_system s ++ (ledger s evs).1.
Proof.
  revert s. induction evs as [|ev evs IH]; intros s; [done|].
  cbn. specialize (IH (step s ev)). unfold run in IH.
  pose proof (in_system_step s ev) as Hs.
  rewrite (app_assoc (in_system s)), <- Hs.
  rewrite <- !app_assoc, (app_assoc _ (lost s ev)).
  rewrite (Permutation_app_comm (lost s ev)).
  rewrite <- !app_assoc, (app_assoc _ (ledger _ _).1), <- IH.
  solve_Permutation.
Qed.

(** X24. Once the queue is empty and no worker carries a job, the ids of the
    results of the threaded scheduler together with the ids of the jobs that
    a worker dropped, on a time-out of [agents_pool.get] or on an exception
    of the unit of work that [except Exception] does not take, are the ids
    of the accepted jobs. *)
Theorem threaded_results_account_for_accepted_jobs P Q evs :
  let s := run (init P Q) evs in
  job_queue s = [] →
  mbind carried (workers s) = [] →
  (JobResult.job_id <$> results_queue s) ++ (ledger (init P Q) evs).2
  ≡ₚ (ledger (init P Q) evs).1.
Proof.
  intros s Hq Hw.
  pose proof (in_system_run (init P Q) evs) as H. fold s in H.
  unfold in_system in H. rewrite Hq, Hw in H. exact H.
Qed.





(** C1, where the code departs from it. A threaded scheduler with one agent
    is stopped while its worker is busy with "j1" and started again; the new
    worker takes "j2" from the queue, waits 5 seconds for the agent and
    gives up.  At the end the queue is empty, both workers are back at the
    head of their loop and the agent is in the pool, two jobs were accepted,
    and the only result is the one of "j1"; the queue still counts one
    unfinished task, so [wait_for_completion] does not return. *)
Theorem job_lost_when_pool_get_times_out :
  let s := run (init 1 100) restart_while_busy in
  (ledger (init 1 100) restart_while_busy).1 = ["j1"; "j2"] ∧
  jobs_submitted (stats s) = 2%Z ∧
  job_queue s = [] ∧
  workers s = [AtLoopHead; AtLoopHead] ∧
  agents_pool s = [0] ∧
  JobResult.job_id <$> results_queue s = ["j1"] ∧
  drained s = false.
Proof. by vm_compute. Qed.

End BatchProperties.

(** ** Further properties of the cache store *)

Module CacheExtras.
Import SmartCache CacheProperties.

Section Props.
Variable md5_hexdigest : string → string.
Variable payload : Type.
Variable json_dumps : payload → option string.
Variable json_loads : string → option payload.

Local Abbreviation key := (_generate_cache_key md5_hexdigest).
Local Abbreviation get := (get md5_hexdigest json_loads).
Local Abbreviation set := (set md5_hexdigest json_dumps).
Local Abbreviation delete := (SmartCache.delete md5_hexdigest).

(** A [get] on a key without a line is a miss that writes nothing. *)
Lemma get_absent data_type identifier w :
  table w !! key data_type identifier = None →
  (get data_type identifier w).1 = Ok None ∧
  table (get data_type identifier w).2 = table w.
Proof.
  intros Hk.
  assert (Hsel : ∀ now, select_valid (key data_type identifier) now (table w) = None).
  { intros now. unfold select_valid. by rewrite Hk. }
  run_ops. case_faults; try done.
  all: rewrite Hsel; cbn.
  all: case_faults; done.
Qed.

(** A [get] returns a value, whatever the storage layer does. *)
Lemma cache_operations_never_raise_get data_type identifier w :
  ∃ r, (get data_type identifier w).1 = Ok r.
Proof. run_ops. repeat (case_match; cbn; simplify_eq/=); eauto. Qed.

(** A [get] on a line whose expiration is not after the time read is a
    miss that writes nothing. *)
Lemma get_stale data_type identifier w r :
  table w !! key data_type identifier = Some r →
  (expires_at r ≤ clock w (reads w))%Z →
  (get data_type identifier w).1 = Ok None ∧
  table (get data_type identifier w).2 = table w.
Proof.
  intros Hk Hr.
  assert (Hsel : select_valid (key data_type identifier) (clock w (reads w))
                   (table w) = None).
  { unfold select_valid. rewrite Hk. cbn.
    rewrite bool_decide_eq_false_2; [done | lia]. }
  run_ops. case_faults; try done.
  all: rewrite Hsel; cbn.
  all: case_faults; done.
Qed.

(** What a [delete] that meets no error leaves behind. *)
Lemma delete_healthy data_type identifier w :
  healthy w →
  let w' := (delete data_type identifier w).2 in
  (delete data_type identifier w).1 = Ok () ∧
  table w' = base.delete (key data_type identifier) (table w) ∧
  reads w' = reads w ∧ clock w' = clock w ∧ faults w' = faults w.
Proof.
  intros Hh. run_ops. repeat (rewrite !Hh; cbn). done.
Qed.

(** X1. A [delete] that meets no error removes the line of its key and no
    other, a [get] for the key right after it is a miss, and on a key
    without a line it leaves the table as it was. *)
Theorem delete_then_get_misses data_type identifier w :
  healthy w →
  let w' := (delete data_type identifier w).2 in
  (get data_type identifier w').1 = Ok None ∧
  table w' !! key data_type identifier = None ∧
  (∀ k, k ≠ key data_type identifier → table w' !! k = table w !! k) ∧
  (table w !! key data_type identifier = None → table w' = table w).
Proof.
  intros Hh w'.
  destruct (delete_healthy data_type identifier w Hh) as (_ & Ht & _).
  fold w' in Ht.
  assert (Hgone : table w' !! key data_type identifier = None).
  { rewrite Ht. apply lookup_delete_eq. }
  split_and!.
  - by apply get_absent.
  - done.
  - intros k Hk. rewrite Ht. by apply lookup_delete_ne.
  - intros Hnone. rewrite Ht. by apply delete_id.
Qed.

(** What a [get] that meets no error does with a line that has not
    expired. *)
Lemma get_healthy data_type identifier w r :
  healthy w →
  table w !! key data_type identifier = Some r →
  (clock w (reads w) < expires_at r)%Z →
  let w' := (get data_type identifier w).2 in
  (get data_type identifier w).1 = Ok (json_loads (data r)) ∧
  table w' = <[key data_type identifier :=
                 Row (data r) (cache_type r) (created_at r) (expires_at r)
                   (access_count r + 1) (clock w (S (reads w)))]> (table w) ∧
  reads w' = S (S (reads w)) ∧ clock w' = clock w ∧ faults w' = faults w.
Proof.
  intros Hh Hl Hlt. run_ops. rewrite !Hh. cbn.
  unfold select_valid. rewrite Hl. cbn.
  rewrite bool_decide_eq_true_2 by done. cbn.
  repeat (rewrite !Hh; cbn).
  assert (Hal : update_access (key data_type identifier) (clock w (S (reads w)))
                  (table w)
                = <[key data_type identifier :=
                      Row (data r) (cache_type r) (created_at r) (expires_at r)
                        (access_count r + 1) (clock w (S (reads w)))]> (table w)).
  { unfold update_access. apply map_eq. intros k. rewrite lookup_alter.
    case_decide as Hk.
    - subst k. by rewrite Hl, lookup_insert_eq.
    - by rewrite lookup_insert_ne. }
  destruct (json_loads (data r)); cbn; by rewrite Hal.
Qed.

(** X2. A [get] that meets no error and finds a line that has not expired
    adds one to its access count and stamps it with the time of the second
    clock reading, leaving every other column and every other line alone;
    it returns the decoded payload, and when the stored text cannot be
    decoded it returns a miss although the access has been counted. *)
Theorem get_hit_counts_one_access data_type identifier w r :
  healthy w →
  table w !! key data_type identifier = Some r →
  (clock w (reads w) < expires_at r)%Z →
  let w' := (get data_type identifier w).2 in
  (get data_type identifier w).1 = Ok (json_loads (data r)) ∧
  table w' !! key data_type identifier =
    Some (Row (data r) (cache_type r) (created_at r) (expires_at r)
            (access_count r + 1) (clock w (S (reads w)))) ∧
  (∀ k, k ≠ key data_type identifier → table w' !! k = table w !! k) ∧
  (json_loads (data r) = None →
   (get data_type identifier w).1 = Ok None ∧
   access_count <$> table w' !! key data_type identifier =
     Some (access_count r + 1)%Z).
Proof.
  intros Hh Hl Hlt w'.
  destruct (get_healthy data_type identifier w r Hh Hl Hlt) as (Hres & Ht & _).
  fold w' in Ht. rewrite Ht. split_and!.
  - done.
  - apply lookup_insert_eq.
  - intros k Hk. by apply lookup_insert_ne.
  - intros Hnone. rewrite Hres, Hnone, lookup_insert_eq. done.
Qed.


(** X4. A [set] whose payload cannot be serialised, or whose expiration is
    not a date the calendar has, returns without raising and leaves the
    whole table as it was: the line the key had before is still there. *)
Theorem failed_set_keeps_table data_type identifier data custom w :
  json_dumps data = None ∨
  ¬ representable (clock w (reads w) +
                   expiration_hours data_type custom * microseconds_per_hour) →
  (set data_type identifier data custom w).1 = Ok () ∧
  table (set data_type identifier data custom w).2 = table w.
Proof.
  intros Hfail. run_ops.
  destruct (faults w (calls w)); cbn; [done|].
  destruct (decide (representable _)) as [Hr|Hr]; cbn.
  - destruct Hfail as [Hd|Hn]; [|done]. rewrite Hd. cbn. done.
  - done.
Qed.

(** X5. Whatever the storage layer does and whatever it is given, a [set]
    changes no line but the one of its own key. *)
Theorem set_touches_only_its_key data_type identifier data custom w k :
  k ≠ key data_type identifier →
  table (set data_type identifier data custom w).2 !! k = table w !! k.
Proof.
  intros Hk. run_ops.
  repeat (case_match; cbn; simplify_eq/=); try done.
  all: unfold insert_or_replace; by rewrite lookup_insert_ne.
Qed.

(** X6. [cleanup_old_cache] that meets no error removes exactly the lines
    created at or before the time it reads less the given number of days,
    whether they have expired or not, and returns how many they were; when
    that cut-off is not a date the calendar has, it returns 0 and removes
    nothing. *)
Theorem cleanup_old_cache_removes_by_age days_old w :
  let cutoff := (clock w (reads w) + - (days_old * microseconds_per_day))%Z in
  let w' := (cleanup_old_cache days_old w).2 in
  (healthy w → representable cutoff →
   (cleanup_old_cache days_old w).1 =
     Ok (size (filter (λ kr, (created_at kr.2 ≤ cutoff)%Z) (table w))) ∧
   (∀ k r, table w' !! k = Some r ↔
           table w !! k = Some r ∧ ¬ (created_at r ≤ cutoff)%Z)) ∧
  (¬ representable cutoff →
   (cleanup_old_cache days_old w).1 = Ok 0 ∧ table w' = table w).
Proof.
  intros cutoff w'. split.
  - intros Hh Hr. subst w'. run_ops. rewrite !Hh. cbn. fold cutoff.
    destruct (decide (representable cutoff)) as [_|]; [|done]. cbn.
    repeat (rewrite !Hh; cbn). split; [done|].
    intros k r. by rewrite map_lookup_filter_Some.
  - intros Hr. subst w'. run_ops.
    destruct (faults w (calls w)); cbn; [done|]. fold cutoff.
    destruct (decide (representable cutoff)); [done|]. cbn. done.
Qed.

(** What a sweep that meets no error leaves behind. *)
Lemma clear_expired_healthy w :
  healthy w →
  let now := clock w (reads w) in
  let w' := (clear_expired w).2 in
  (clear_expired w).1 =
    Ok (size (filter (λ kr, (expires_at kr.2 ≤ now)%Z) (table w))) ∧
  table w' = filter (λ kr, ¬ (expires_at kr.2 ≤ now)%Z) (table w) ∧
  reads w' = S (reads w) ∧ clock w' = clock w ∧ faults w' = faults w.
Proof.
  intros Hh. run_ops. repeat (rewrite !Hh; cbn). done.
Qed.

(** X7. Two sweeps in a row, on a clock that does not run backwards: the
    second removes exactly the lines that expired between the two readings
    of the clock, none when the readings are the same, and the table is
    then what one sweep at the second reading would have left. *)
Theorem second_sweep_removes_newly_expired w :
  healthy w →
  let t1 := clock w (reads w) in
  let t2 := clock w (S (reads w)) in
  (t1 ≤ t2)%Z →
  let w1 := (clear_expired w).2 in
  (clear_expired w1).1 =
    Ok (size (filter (λ kr, (t1 < expires_at kr.2 ≤ t2)%Z) (table w))) ∧
  table (clear_expired w1).2 = filter (λ kr, ¬ (expires_at kr.2 ≤ t2)%Z) (table w) ∧
  (t1 = t2 → (clear_expired w1).1 = Ok 0).
Proof.
  intros Hh t1 t2 Hle w1.
  destruct (clear_expired_healthy w Hh) as (_ & Ht & Hreads & Hclock & Hf).
  fold w1 t1 in Ht, Hreads, Hclock, Hf.
  assert (Hh1 : healthy w1) by (intros k; rewrite Hf; apply Hh).
  destruct (clear_expired_healthy w1 Hh1) as (Hres & Ht2 & _).
  rewrite Hclock, Hreads in Hres, Ht2. fold t2 in Hres, Ht2.
  rewrite Ht in Hres, Ht2.
  assert (Hsw : filter (λ kr, (expires_at kr.2 ≤ t2)%Z)
                  (filter (λ kr, ¬ (expires_at kr.2 ≤ t1)%Z) (table w))
                = filter (λ kr, (t1 < expires_at kr.2 ≤ t2)%Z) (table w)).
  { apply map_filter_strong_ext_1. intros i x. cbn.
    rewrite map_lookup_filter_Some. cbn. split.
    - intros (H2 & Hx & H1). split; [lia|done].
    - intros (H12 & Hx). split; [lia|]. split; [done|lia]. }
  rewrite Hsw in Hres. split_and!.
  - done.
  - rewrite Ht2. apply map_filter_strong_ext_1. intros i x. cbn.
    rewrite map_lookup_filter_Some. cbn. split.
    + intros (H2 & Hx & H1). done.
    + intros (H2 & Hx). split; [done|]. split; [done|lia].
  - intros Heq. rewrite Hres. f_equal.
    apply map_size_empty_iff, map_empty. intros i.
    apply map_lookup_filter_None. right. intros x _. cbn. lia.
Qed.

(** The lines of a table are those a predicate holds of and the others. *)
Lemma filter_complement_size (P : string * row → Prop) `{!∀ x, Decision (P x)}
    (t : gmap string row) :
  size t = size (filter P t) + size (filter (λ kr, ¬ P kr) t).
Proof.
  rewrite <- (map_size_disj_union (filter P t) (filter (λ kr, ¬ P kr) t)).
  - by rewrite map_filter_union_complement.
  - apply map_disjoint_filter_complement.
Qed.

(** X8. [get_cache_stats] writes nothing, whatever the storage layer does.
    When it meets no error it reports the number of lines, the number of
    them that have expired at the time it reads and, as active, the number
    of the others, so that total = expired + active; a type has an entry in
    the report exactly when some line has it, and its count is the number
    of these lines. *)
Theorem get_cache_stats_counts w :
  table (get_cache_stats w).2 = table w ∧
  (healthy w →
   let now := clock w (reads w) in
   ∃ cs, (get_cache_stats w).1 = Ok (Some cs) ∧
     total_entries cs = size (table w) ∧
     expired_entries cs = size (filter (λ kr, (expires_at kr.2 ≤ now)%Z) (table w)) ∧
     active_entries cs =
       Z.of_nat (size (filter (λ kr, ¬ (expires_at kr.2 ≤ now)%Z) (table w))) ∧
     (Z.of_nat (total_entries cs) =
        Z.of_nat (expired_entries cs) + active_entries cs)%Z ∧
     (∀ ty, by_type cs ty = None ↔
            ∀ k r, table w !! k = Some r → cache_type r ≠ ty) ∧
     (∀ ty st, by_type cs ty = Some st →
               count st = size (group ty (table w)) ∧ 0 < count st)).
Proof.
  split.
  - run_ops. repeat (case_match; cbn; simplify_eq/=); done.
  - intros Hh now. run_ops. repeat (rewrite !Hh; cbn).
    eexists. split; [reflexivity|]. cbn. fold now.
    pose proof (filter_complement_size
                  (λ kr, (expires_at kr.2 ≤ now)%Z) (table w)) as Hsz.
    unfold count_expired. split_and!; try done.
    + lia.
    + lia.
    + intros ty. unfold group_by_cache_type.
      destruct (size (group ty (table w))) as [|n] eqn:Hn.
      * split; [|done]. intros _ k r Hk Hty.
        apply map_size_empty_iff in Hn.
        by eapply (map_filter_empty_not_lookup _ _ k r Hn).
      * split; [done|]. intros Hall. exfalso.
        assert (Hne : size (group ty (table w)) ≠ 0) by lia.
        apply map_size_ne_0_lookup in Hne as (k & r & Hkr).
        unfold group in Hkr. apply map_lookup_filter_Some in Hkr as [Hk Hty].
        by apply (Hall k r Hk).
    + intros ty st. unfold group_by_cache_type.
      destruct (size (group ty (table w))) as [|n] eqn:Hn; [done|].
      intros [= <-]. cbn. lia.
Qed.

(** X26. [_is_expired] answers [True] for a text that is not a date, and
    otherwise whether the date is strictly before the time it reads.  At
    the very instant of the expiration it answers [False], while [get]
    already treats the line as expired and returns a miss. *)
Theorem is_expired_differs_from_get_at_the_instant
    (fromisoformat : string → option Z) text data_type identifier w r :
  (fromisoformat text = None →
   (_is_expired fromisoformat text w).1 = Ok true) ∧
  (∀ t, fromisoformat text = Some t →
     (_is_expired fromisoformat text w).1 =
       Ok (bool_decide (t < clock w (reads w))%Z)) ∧
  (fromisoformat text = Some (expires_at r) →
   table w !! key data_type identifier = Some r →
   clock w (reads w) = expires_at r →
   (_is_expired fromisoformat text w).1 = Ok false ∧
   (get data_type identifier w).1 = Ok None).
Proof.
  split_and!.
  - intros Hn. unfold _is_expired. by rewrite Hn.
  - intros t Ht. unfold _is_expired. by rewrite Ht.
  - intros Ht Hk Hnow. split.
    + unfold _is_expired. rewrite Ht. run_ops.
      rewrite bool_decide_eq_false_2; [done | lia].
    + apply (get_stale data_type identifier w r Hk). lia.
Qed.

(** X27. A [set] with a negative override stores a line that has expired
    from the start: on a clock that does not run backwards the [get] that
    follows is a miss, and the line stays in the table. *)
Theorem negative_override_is_never_served data_type identifier data hours text w :
  healthy w →
  json_dumps data = Some text →
  (hours < 0)%Z →
  let expires := (clock w (reads w) + hours * microseconds_per_hour)%Z in
  representable expires →
  let w1 := (set data_type identifier data (Some hours) w).2 in
  (clock w (reads w) ≤ clock w1 (reads w1))%Z →
  (get data_type identifier w1).1 = Ok None ∧
  expires_at <$> table (get data_type identifier w1).2 !! key data_type identifier
    = Some expires.
Proof.
  intros Hh Hd Hneg expires Hr w1 Hmono.
  assert (Hhours : expiration_hours data_type (Some hours) = hours).
  { unfold expiration_hours. destruct (decide (hours = 0%Z)); [lia|done]. }
  destruct (set_healthy md5_hexdigest payload json_dumps data_type identifier
              data (Some hours) text w Hh Hd) as (_ & Ht & _).
  { by rewrite Hhours. }
  fold w1 in Ht. rewrite Hhours in Ht. fold expires in Ht.
  assert (Hk : table w1 !! key data_type identifier =
               Some (Row text data_type (clock w (S (reads w))) expires 0
                       (clock w (S (S (reads w)))))).
  { rewrite Ht. apply lookup_insert_eq. }
  destruct (get_stale data_type identifier w1 _ Hk) as [Hres Hsame].
  { cbn. unfold expires, microseconds_per_hour. lia. }
  split; [done|]. by rewrite Hsame, Hk.
Qed.

End Props.

Section HelperProps.
Variable md5_hexdigest : string → string.
Variable payload : Type.
Variable json_dumps : payload → option string.
Variable json_loads : string → option payload.
Variable is_list : payload → bool.
Variable truthy : payload → bool.
Variable dict_get : payload → string → option payload.

Local Abbreviation key := (_generate_cache_key md5_hexdigest).

(** X9. [cache_github_data] that meets no error writes the profile line of
    the user with the 12 hours of its namespace.  When the data has no
    ["github_repos"] field, or an empty one, nothing else is written: a
    repository line cached earlier for the user stays as it is.  When the
    field holds a non-empty value, that value is written as the repository
    line, with the 6 hours of its namespace counted from a later reading of
    the clock. *)
Theorem cache_github_data_writes github_username github_data text w :
  healthy w →
  json_dumps github_data = Some text →
  key "github_profile" github_username ≠ key "github_repos" github_username →
  let expires := (clock w (reads w) + 12 * microseconds_per_hour)%Z in
  representable expires →
  let w' := (cache_github_data md5_hexdigest json_dumps truthy dict_get
               github_username github_data w).2 in
  let profile := Row text "github_profile" (clock w (S (reads w))) expires 0
                   (clock w (S (S (reads w)))) in
  ((dict_get github_data "github_repos" = None ∨
    ∃ v, dict_get github_data "github_repos" = Some v ∧ truthy v = false) →
   table w' = <[key "github_profile" github_username := profile]> (table w) ∧
   table w' !! key "github_repos" github_username =
     table w !! key "github_repos" github_username) ∧
  (∀ v tv,
     dict_get github_data "github_repos" = Some v → truthy v = true →
     json_dumps v = Some tv →
     let expires' := (clock w (3 + reads w) + 6 * microseconds_per_hour)%Z in
     representable expires' →
     table w' =
       <[key "github_repos" github_username :=
           Row tv "github_repos" (clock w (4 + reads w)) expires' 0
             (clock w (5 + reads w))]>
         (<[key "github_profile" github_username := profile]> (table w))).
Proof.
  intros Hh Hd Hkeys expires Hr w' profile.
  destruct (set_healthy md5_hexdigest payload json_dumps "github_profile"
              github_username github_data None text w Hh Hd Hr)
    as (Hok & Ht & Hreads & Hclock & Hf).
  set (w1 := (set md5_hexdigest json_dumps "github_profile" github_username
                github_data None w).2) in *.
  assert (Hw1 : set md5_hexdigest json_dumps "github_profile" github_username
                  github_data None w = (Ok (), w1)).
  { subst w1. by destruct (set _ _ _ _ _ _ w) as [? ?]; simplify_eq/=. }
  assert (Hh1 : healthy w1) by (intros k; rewrite Hf; apply Hh).
  split.
  - intros Hnone. subst w'. unfold cache_github_data, mbind, M_bind.
    rewrite Hw1.
    assert (Hw' : table w1 = <[key "github_profile" github_username := profile]>
                               (table w)) by exact Ht.
    destruct Hnone as [-> | (v & -> & ->)]; cbn.
    all: split; [done|]; rewrite Hw'; by rewrite lookup_insert_ne.
  - intros v tv Hv Htr Htv expires' Hr'.
    subst w'. unfold cache_github_data, mbind, M_bind.
    rewrite Hw1, Hv, Htr.
    destruct (set_healthy md5_hexdigest payload json_dumps "github_repos"
                github_username v None tv w1 Hh1 Htv) as (_ & Ht' & _).
    { rewrite Hclock, Hreads. exact Hr'. }
    rewrite Ht', Ht, Hclock, Hreads. done.
Qed.

(** X10. [invalidate_github_data] that meets no error leaves neither the
    profile line nor the repository line of the user, so that
    [get_cached_github_data] is a miss afterwards, and touches no other
    line. *)
Theorem invalidate_github_data_removes_both github_username w :
  healthy w →
  let w' := (invalidate_github_data md5_hexdigest github_username w).2 in
  table w' !! key "github_profile" github_username = None ∧
  table w' !! key "github_repos" github_username = None ∧
  (get_cached_github_data md5_hexdigest json_loads github_username w').1 = Ok None ∧
  (∀ k, k ≠ key "github_profile" github_username →
        k ≠ key "github_repos" github_username →
        table w' !! k = table w !! k).
Proof.
  intros Hh w'.
  assert (Ht : table w' = base.delete (key "github_repos" github_username)
                            (base.delete (key "github_profile" github_username)
                               (table w))).
  { subst w'. unfold invalidate_github_data. run_ops.
    repeat (rewrite !Hh; cbn). done. }
  assert (Hp : table w' !! key "github_profile" github_username = None).
  { rewrite Ht, lookup_delete. case_decide; [done|]. apply lookup_delete_eq. }
  split_and!.
  - done.
  - rewrite Ht. apply lookup_delete_eq.
  - unfold get_cached_github_data. by apply CacheExtras.get_absent.
  - intros k Hk1 Hk2. rewrite Ht. by rewrite !lookup_delete_ne.
Qed.

(** [get_cached_search_results] is [get] followed by the test on the
    result. *)
Lemma get_cached_search_results_unfold search_query w :
  get_cached_search_results md5_hexdigest json_loads is_list search_query w =
  (match (get md5_hexdigest json_loads "search_results" search_query w).1 with
   | Ok (Some r) => Ok (if is_list r then Some r else None)
   | Ok None => Ok None
   | Raise e => Raise e
   end,
   (get md5_hexdigest json_loads "search_results" search_query w).2).
Proof.
  unfold get_cached_search_results, mbind, M_bind.
  destruct (get _ _ _ _ w) as [[[r|]|e] w1]; done.
Qed.

(** X11. [get_cached_search_results] never raises and returns nothing but
    lists.  When the line of the query holds something else, the caller is
    given a miss although [get] has found the line and counted the
    access. *)
Theorem get_cached_search_results_only_lists search_query w :
  (∃ v, (get_cached_search_results md5_hexdigest json_loads is_list
           search_query w).1 = Ok v ∧
        ∀ r, v = Some r → is_list r = true) ∧
  (∀ r p, healthy w →
     table w !! key "search_results" search_query = Some r →
     (clock w (reads w) < expires_at r)%Z →
     json_loads (data r) = Some p →
     is_list p = false →
     let w' := (get_cached_search_results md5_hexdigest json_loads is_list
                  search_query w).2 in
     (get_cached_search_results md5_hexdigest json_loads is_list
        search_query w).1 = Ok None ∧
     access_count <$> table w' !! key "search_results" search_query =
       Some (access_count r + 1)%Z).
Proof.
  split.
  - rewrite get_cached_search_results_unfold. cbn.
    destruct (cache_operations_never_raise_get md5_hexdigest payload json_loads
                "search_results" search_query w) as [v ->].
    destruct v as [r|]; [|by eexists].
    destruct (is_list r) eqn:Hl; eexists; (split; [done|]); by intros ? [= <-].
  - intros r p Hh Hl Hlt Hp Hnl w'.
    destruct (get_healthy md5_hexdigest payload json_loads
                "search_results" search_query w r Hh Hl Hlt) as (Hres & Ht & _).
    subst w'. rewrite get_cached_search_results_unfold. cbn.
    rewrite Hres, Hp, Hnl. split; [done|].
    by rewrite Ht, lookup_insert_eq.
Qed.

End HelperProps.

Lemma is_expired_differs_from_get_at_the_instant_witness :
  (_is_expired (λ _, Some 50%Z) "0001-01-01T00:00:00.000050"
     (World (table world1) (λ _, 50%Z) 0 (λ _, None) 0 [])).1 = Ok false ∧
  (SmartCache.get (λ s, s) Some "search_results" "q"
     (World (table world1) (λ _, 50%Z) 0 (λ _, None) 0 [])).1 = Ok None.
Proof.
  apply (is_expired_differs_from_get_at_the_instant (λ s, s) string Some
           (λ _, Some 50%Z) "0001-01-01T00:00:00.000050" "search_results" "q"
           (World (table world1) (λ _, 50%Z) 0 (λ _, None) 0 [])
           (Row "[0]" "search_results" 0 50 7 3)).
  - reflexivity.
  - by vm_compute.
  - reflexivity.
Defined.

Lemma negative_override_is_never_served_witness :
  (SmartCache.get (λ s, s) Some "search_results" "q"
     (SmartCache.set (λ s, s) Some "search_results" "q" "[1]" (Some (-1)%Z)
        (World ∅ (λ k, (3600000000 + Z.of_nat k)%Z) 0 (λ _, None) 0 [])).2).1
  = Ok None.
Proof.
  apply (negative_override_is_never_served (λ s, s) string Some Some
           "search_results" "q" "[1]" (-1)%Z "[1]"
           (World ∅ (λ k, (3600000000 + Z.of_nat k)%Z) 0 (λ _, None) 0 [])).
  - intros k. reflexivity.
  - reflexivity.
  - by vm_compute.
  - by vm_compute.
  - by vm_compute.
Defined.

Lemma delete_then_get_misses_witness :
  (SmartCache.get (λ s, s) Some "search_results" "q"
     (SmartCache.delete (λ s, s) "search_results" "q" world1).2).1 = Ok None.
Proof.
  apply (delete_then_get_misses (λ s, s) string Some "search_results" "q" world1).
  intros k. reflexivity.
Defined.

Lemma get_hit_counts_one_access_witness :
  (SmartCache.get (λ s, s) Some "search_results" "q" world1).1 = Ok (Some "[0]") ∧
  table (SmartCache.get (λ s, s) Some "search_results" "q" world1).2
    !! "search_results:q"
  = Some (Row "[0]" "search_results" 0 50 8 1).
Proof.
  destruct (get_hit_counts_one_access (λ s, s) string Some "search_results" "q"
              world1 (Row "[0]" "search_results" 0 50 7 3))
    as (H1 & H2 & _).
  - intros k. reflexivity.
  - by vm_compute.
  - by vm_compute.
  - split; [exact H1 | exact H2].
Defined.

Lemma failed_set_keeps_table_witness :
  table (SmartCache.set (λ s, s) (λ _ : string, None) "search_results" "q" "[1]"
           None world1).2 = table world1.
Proof.
  apply (failed_set_keeps_table (λ s, s) string (λ _, None)
           "search_results" "q" "[1]" None world1).
  left. reflexivity.
Defined.

Lemma set_touches_only_its_key_witness :
  table (SmartCache.set (λ s, s) Some "linkedin_profile" "u" "{}" None world1).2
    !! "search_results:q" = table world1 !! "search_results:q".
Proof.
  apply (set_touches_only_its_key (λ s, s) string Some
           "linkedin_profile" "u" "{}" None world1).
  by vm_compute.
Defined.

Lemma cleanup_old_cache_removes_by_age_witness :
  (cleanup_old_cache 0 world5).1 = Ok 5 ∧
  table (cleanup_old_cache 0 world5).2 !! "search_results:d" = None.
Proof.
  destruct (cleanup_old_cache_removes_by_age 0 world5) as [H _].
  destruct H as [Hres Ht].
  - intros k. reflexivity.
  - by vm_compute.
  - split.
    + rewrite Hres. by vm_compute.
    + destruct (table (cleanup_old_cache 0 world5).2 !! "search_results:d")
        as [r|] eqn:Hr; [|reflexivity].
      apply Ht in Hr as [Hin Hnew]. exfalso. apply Hnew.
      vm_compute in Hin. injection Hin as <-. by vm_compute.
Defined.

Lemma second_sweep_removes_newly_expired_witness :
  (clear_expired (clear_expired world5).2).1 = Ok 0.
Proof.
  destruct (second_sweep_removes_newly_expired world5) as (Hres & _).
  - intros k. reflexivity.
  - by vm_compute.
  - rewrite Hres. by vm_compute.
Defined.

Lemma get_cache_stats_counts_witness :
  ∃ cs, (get_cache_stats world5).1 = Ok (Some cs) ∧
        total_entries cs = 5 ∧ expired_entries cs = 3 ∧ active_entries cs = 2%Z.
Proof.
  destruct (get_cache_stats_counts world5) as [_ H].
  destruct H as (cs & Hcs & Htot & Hexp & Hact & _).
  - intros k. reflexivity.
  - exists cs. split; [exact Hcs|].
    rewrite Htot, Hexp, Hact. vm_compute. repeat split.
Defined.

Lemma cache_github_data_writes_witness :
  table (cache_github_data (λ s, s) Some (λ _ : string, false) (λ _ _, None)
           "u" "{}" world1).2 !! "github_repos:u"
  = table world1 !! "github_repos:u".
Proof.
  destruct (cache_github_data_writes (λ s, s) string Some (λ _, false)
              (λ _ _, None) "u" "{}" "{}" world1) as [H _].
  - intros k. reflexivity.
  - reflexivity.
  - by vm_compute.
  - by vm_compute.
  - destruct H as [_ H]; [by left | exact H].
Defined.

Lemma invalidate_github_data_removes_both_witness :
  table (invalidate_github_data (λ s, s) "u"
           (cache_github_data (λ s, s) Some (λ _ : string, false) (λ _ _, None)
              "u" "{}" world1).2).2 !! "github_profile:u" = None.
Proof.
  apply (invalidate_github_data_removes_both (λ s, s) string Some "u").
  intros k. reflexivity.
Defined.

Lemma get_cached_search_results_only_lists_witness :
  (get_cached_search_results (λ s, s) Some (λ _ : string, false) "q" world1).1
  = Ok None.
Proof.
  destruct (get_cached_search_results_only_lists (λ s, s) string Some
              (λ _, false) "q" world1) as [_ H].
  apply (H (Row "[0]" "search_results" 0 50 7 3) "[0]").
  - intros k. reflexivity.
  - by vm_compute.
  - by vm_compute.
  - reflexivity.
  - reflexivity.
Defined.

End CacheExtras.

(** ** Further properties of the schedulers *)

Module BatchExtras.
Import Batch BatchProperties.

Lemma bind_insert_length {A B} (f : A → list B) (l : list A) i x y :
  l !! i = Some x →
  length (f x) + length (mbind f (<[i := y]> l)) =
  length (f y) + length (mbind f l).
Proof.
  intros Hi. rewrite <- !length_app.
  apply Permutation_length. by apply bind_insert_perm.
Qed.

Lemma bind_replicate_nil {A B} (f : A → list B) x n :
  f x = [] → mbind f (replicate n x) = [].
Proof. intros Hx. induction n as [|n IH]; [done|]. cbn. by rewrite Hx, IH. Qed.

(** Note what replacing worker [i] does to the length of a bind over the
    workers. *)
Ltac note_insert f Hw :=
  match goal with
  | |- context [<[?i := ?y]> (workers ?s)] =>
      let HL := fresh "HL" in
      pose proof (bind_insert_length f (workers s) i _ y Hw) as HL; cbn in HL
  end.

(** *** What [job_queue.join] waits for *)

Lemma unfinished_step s ev n :
  unfinished_tasks s =
    length (job_queue s) + length (mbind unmarked (workers s)) + n →
  unfinished_tasks (step s ev) =
    length (job_queue (step s ev)) +
    length (mbind unmarked (workers (step s ev))) + (n + length (lost s ev)).
Proof.
  intros Hinv. destruct ev as [| |job| |i e]; cbn.
  - unfold start_workers. destruct (is_running s); cbn; [lia|].
    rewrite bind_app, length_app, bind_replicate_nil by done. cbn. lia.
  - unfold stop_workers. destruct (is_running s); cbn; lia.
  - unfold submit_job. destruct (full _ _); cbn; [lia|].
    rewrite length_app. cbn. lia.
  - unfold submit_job_count. destruct (submitting s); cbn; lia.
  - unfold _worker_loop.
    destruct (workers s !! i) as [w|] eqn:Hw; [|cbn; lia].
    destruct w; cbn; repeat (case_match; cbn); simplify_eq/=;
      repeat match goal with
             | H : job_queue s = _ |- _ => rewrite H in *; clear H
             | H : agents_pool s = _ |- _ => rewrite H in *; clear H
             | H : unfinished_tasks s = _ |- _ => rewrite H in *; clear H
             end; cbn in *;
      try lia; note_insert (@unmarked) Hw; lia.
Qed.

Lemma unfinished_run s evs n :
  unfinished_tasks s =
    length (job_queue s) + length (mbind unmarked (workers s)) + n →
  unfinished_tasks (run s evs) =
    length (job_queue (run s evs)) +
    length (mbind unmarked (workers (run s evs))) +
    (n + length (ledger s evs).2).
Proof.
  revert s n. induction evs as [|ev evs IH]; intros s n Hinv.
  - cbn. lia.
  - cbn. rewrite length_app.
    pose proof (IH (step s ev) _ (unfinished_step s ev n Hinv)) as H.
    unfold run in H. rewrite H. lia.
Qed.

Lemma unmarked_nil_carried_nil (ws : list worker) :
  mbind unmarked ws = [] → mbind carried ws = [].
Proof.
  induction ws as [|w ws IH]; [done|]. cbn.
  intros H. apply app_eq_nil in H as [Hw Hws].
  rewrite (IH Hws). by destruct w.
Qed.

Lemma get_all_results_loop_spec fuel acc s :
  length (results_queue s) < fuel →
  get_all_results_loop fuel acc s =
    Some (acc ++ results_queue s, with_results_queue [] s).
Proof.
  revert acc s. induction fuel as [|fuel IH]; intros acc s Hlt; [lia|].
  cbn. unfold get_result.
  destruct (results_queue s) as [|r q] eqn:Hq.
  - rewrite app_nil_r. f_equal. f_equal. destruct s; cbn in *. by subst.
  - rewrite IH by (cbn in *; lia). cbn. by rewrite <- app_assoc.
Qed.

(** X28. A unit of work that raises an exception outside [Exception] ends
    its worker: the [finally] block puts the agent back at the end of the
    pool, which has room for it, and the thread leaves the loop, the other
    workers staying where they were.  No result is published, the counters
    stay as they were and the job is not marked done: whatever happens
    afterwards, [job_queue.join] does not return. *)
Theorem base_exception_ends_worker P Q evs i job a start_time e1 e2 msg evs' :
  let s := run (init P Q) evs in
  workers s !! i = Some (Processing job a start_time) →
  wake e1 = RaisedBase msg →
  let s1 := _worker_loop i e1 s in
  let s2 := _worker_loop i e2 s1 in
  workers s1 !! i = Some (Unwinding a) ∧
  workers s2 !! i = Some Exited ∧
  agents_pool s2 = agents_pool s ++ [a] ∧
  (a ∉ checked_out s2) ∧
  results_queue s2 = results_queue s ∧
  stats s2 = stats s ∧
  unfinished_tasks s2 = unfinished_tasks s ∧
  (∀ j, j ≠ i → workers s2 !! j = workers s !! j) ∧
  drained (run s2 evs') = false.
Proof.
  intros s Hw He s1 s2.
  destruct (pool_inv_run P Q evs) as [Hinv HP]. fold s in Hinv, HP.
  pose proof (lookup_lt_Some _ _ _ Hw) as Hlt.
  assert (Hs1 : s1 = with_worker i (Unwinding a) s).
  { subst s1. unfold _worker_loop. by rewrite Hw, He. }
  assert (Hw1 : workers s1 !! i = Some (Unwinding a)).
  { rewrite Hs1. cbn. by apply list_lookup_insert_eq. }
  assert (Hinv1 : pool_inv s1) by apply (pool_inv_step s (WorkerStep i e1) Hinv).
  assert (Hroom : full (max_workers s1) (agents_pool s1) = false).
  { eapply pool_has_room; [done..|]. cbn. apply list_elem_of_here. }
  assert (Hs2 : s2 = with_worker i Exited
                       (with_agents_pool (agents_pool s1 ++ [a]) s1)).
  { subst s2. unfold _worker_loop. rewrite Hw1, Hroom. done. }
  assert (Hinv2 : pool_inv s2) by apply (pool_inv_step s1 (WorkerStep i e2) Hinv1).
  assert (Hpool2 : agents_pool s2 = agents_pool s ++ [a]).
  { rewrite Hs2, Hs1. done. }
  split_and!.
  - done.
  - rewrite Hs2. cbn. apply list_lookup_insert_eq. rewrite Hs1. cbn.
    by rewrite length_insert.
  - done.
  - intros Hin.
    assert (Hnd : NoDup (agents_pool s2 ++ checked_out s2)).
    { unfold pool_inv in Hinv2. rewrite Hinv2. apply NoDup_seq. }
    apply NoDup_app in Hnd as (_ & Hdisj & _).
    apply (Hdisj a); [|done]. rewrite Hpool2. apply elem_of_app. right.
    apply list_elem_of_here.
  - rewrite Hs2, Hs1. done.
  - rewrite Hs2, Hs1. done.
  - rewrite Hs2, Hs1. done.
  - intros j Hj. rewrite Hs2. cbn.
    rewrite list_lookup_insert_ne by done. rewrite Hs1. cbn.
    by rewrite list_lookup_insert_ne.
  - pose proof (unfinished_run (init P Q) evs 0 eq_refl) as Hu. fold s in Hu.
    pose proof (unfinished_step s (WorkerStep i e1) _ Hu) as Hu1.
    assert (Hlost : length (lost s (WorkerStep i e1)) = 1).
    { cbn. rewrite Hw, He. by destruct (agents_pool s). }
    rewrite Hlost in Hu1. cbn [step] in Hu1. fold s1 in Hu1.
    pose proof (unfinished_step s1 (WorkerStep i e2) _ Hu1) as Hu2.
    cbn [step] in Hu2. fold s2 in Hu2.
    pose proof (unfinished_run s2 evs' _ Hu2) as Hu3.
    unfold drained. apply bool_decide_eq_false. lia.
Qed.

(** X12. When [job_queue.join] returns, that is when no task is left
    unfinished, no job has been lost, the queue is empty, no worker holds a
    job, and the results queue holds one result for each accepted job;
    [get_all_results] then returns them all. *)
Theorem drained_batch_has_every_result P Q evs fuel :
  let s := run (init P Q) evs in
  drained s = true →
  length (results_queue s) < fuel →
  (ledger (init P Q) evs).2 = [] ∧
  job_queue s = [] ∧
  mbind unmarked (workers s) = [] ∧
  JobResult.job_id <$> results_queue s ≡ₚ (ledger (init P Q) evs).1 ∧
  get_all_results fuel s = Some (results_queue s, with_results_queue [] s).
Proof.
  intros s Hd Hfuel.
  unfold drained in Hd. apply bool_decide_eq_true in Hd.
  pose proof (unfinished_run (init P Q) evs 0 eq_refl) as Hu. fold s in Hu.
  rewrite Hd in Hu.
  assert (Hq : job_queue s = []) by (apply nil_length_inv; lia).
  assert (Hw : mbind unmarked (workers s) = []) by (apply nil_length_inv; lia).
  assert (Hl : (ledger (init P Q) evs).2 = []) by (apply nil_length_inv; lia).
  split_and!; try done.
  - pose proof (in_system_run (init P Q) evs) as H. fold s in H.
    unfold in_system in H.
    rewrite Hq, Hl, (unmarked_nil_carried_nil _ Hw) in H. cbn in H.
    by rewrite app_nil_r in H.
  - unfold get_all_results. by rewrite get_all_results_loop_spec.
Qed.

(** X13. [get_all_results] returns the results that are in the queue,
    oldest first, and leaves the queue empty and everything else as it was;
    on an empty queue [get_result] returns [None] and changes nothing. *)
Theorem get_all_results_drains_in_order s fuel :
  length (results_queue s) < fuel →
  get_all_results fuel s = Some (results_queue s, with_results_queue [] s) ∧
  (results_queue s = [] → get_result s = (None, s)) ∧
  (∀ r q, results_queue s = r :: q →
     get_result s = (Some r, with_results_queue q s)).
Proof.
  intros Hfuel. split_and!.
  - unfold get_all_results. by rewrite get_all_results_loop_spec.
  - intros Hq. unfold get_result. by rewrite Hq.
  - intros r q Hq. unfold get_result. by rewrite Hq.
Qed.

(** *** The counters *)

Lemma update_stats_submitted job_result st :
  jobs_submitted (update_stats job_result st) = jobs_submitted st.
Proof. unfold update_stats. by repeat (case_match; cbn). Qed.

Lemma submitted_step s ev :
  (jobs_submitted (stats (step s ev)) + Z.of_nat (submitting (step s ev)) =
   jobs_submitted (stats s) + Z.of_nat (submitting s) +
   Z.of_nat (length (accepted s ev)))%Z.
Proof.
  destruct ev as [| |job| |i e]; cbn.
  - unfold start_workers. destruct (is_running s); cbn; lia.
  - unfold stop_workers. destruct (is_running s); cbn; lia.
  - unfold submit_job. destruct (full _ _); cbn; lia.
  - unfold submit_job_count. destruct (submitting s) eqn:E; cbn -[Z.of_nat];
      rewrite ?E; lia.
  - unfold _worker_loop.
    destruct (workers s !! i) as [w|]; [|cbn; lia].
    destruct w; cbn; repeat (case_match; cbn);
      rewrite ?update_stats_submitted; lia.
Qed.

Lemma submitted_run s evs :
  (jobs_submitted (stats (run s evs)) + Z.of_nat (submitting (run s evs)) =
   jobs_submitted (stats s) + Z.of_nat (submitting s) +
   Z.of_nat (length (ledger s evs).1))%Z.
Proof.
  revert s. induction evs as [|ev evs IH]; intros s; [cbn; lia|].
  cbn. rewrite length_app. specialize (IH (step s ev)). unfold run in IH.
  rewrite IH, submitted_step. lia.
Qed.

(** X14. [jobs_submitted] counts the jobs that [submit_job] has accepted
    and finished counting: together with the calls that are between the
    [put] and the counter it is the number of accepted jobs, so it never
    exceeds that number, and a submission refused by a full queue is not
    counted. *)
Theorem jobs_submitted_counts_accepted P Q evs :
  let s := run (init P Q) evs in
  (jobs_submitted (stats s) + Z.of_nat (submitting s) =
   Z.of_nat (length (ledger (init P Q) evs).1))%Z ∧
  (jobs_submitted (stats s) ≤ Z.of_nat (length (ledger (init P Q) evs).1))%Z ∧
  (∀ job_request, (submit_job job_request s).1 = false →
     (submit_job job_request s).2 = s ∧ accepted s (SubmitJob job_request) = []).
Proof.
  intros s. pose proof (submitted_run (init P Q) evs) as H. fold s in H.
  cbn in H. split_and!; [lia | lia |].
  intros job_request. unfold accepted, submit_job.
  by destruct (full _ _).
Qed.

(** *** The job queue *)

Lemma queue_bound_step s ev :
  (0 < max_queue_size s → length (job_queue s) ≤ max_queue_size s) →
  max_queue_size (step s ev) = max_queue_size s ∧
  (0 < max_queue_size s → length (job_queue (step s ev)) ≤ max_queue_size s).
Proof.
  intros Hb. destruct ev as [| |job| |i e]; cbn.
  - unfold start_workers. by destruct (is_running s).
  - unfold stop_workers. by destruct (is_running s).
  - unfold submit_job, full.
    destruct (bool_decide (0 < max_queue_size s)) eqn:H0; cbn.
    + apply bool_decide_eq_true in H0.
      case_bool_decide as H1; cbn; [done|]. split; [done|].
      intros _. rewrite length_app. cbn. lia.
    + apply bool_decide_eq_false in H0. split; [done|]. intros ?. lia.
  - unfold submit_job_count. by destruct (submitting s).
  - unfold _worker_loop.
    destruct (workers s !! i) as [w|]; [|done].
    destruct w; cbn; repeat (case_match; cbn); try (split; [done|exact Hb]).
    all: split; [done|]; intros Hpos; specialize (Hb Hpos); cbn in Hb.
    all: try match goal with H : job_queue _ = _ |- _ => rewrite H end; cbn; lia.
Qed.

(** X15. The job queue never holds more than [max_queue_size] jobs when
    that size is positive: [submit_job] refuses a job exactly when the
    queue has reached it.  With a size of 0 the queue has no bound and every
    job is accepted. *)
Theorem job_queue_is_bounded P Q evs :
  let s := run (init P Q) evs in
  (0 < Q → length (job_queue s) ≤ Q) ∧
  (∀ job_request,
     (submit_job job_request s).1 = false ↔ 0 < Q ∧ length (job_queue s) = Q).
Proof.
  intros s.
  assert (H : max_queue_size s = Q ∧ (0 < Q → length (job_queue s) ≤ Q)).
  { subst s. induction evs as [|ev evs IH] using rev_ind.
    - cbn. split; [done|lia].
    - rewrite run_snoc. destruct IH as [IH1 IH2].
      destruct (queue_bound_step (run (init P Q) evs) ev) as [H1 H2].
      { by rewrite IH1. }
      rewrite H1. split; [done|]. by rewrite IH1 in H2. }
  destruct H as [HQ Hb]. split; [done|].
  intros job_request. unfold submit_job, full. rewrite HQ.
  destruct (bool_decide (0 < Q)) eqn:H0; cbn.
  - apply bool_decide_eq_true in H0. specialize (Hb H0).
    case_bool_decide as H1; cbn.
    + split; [|done]. intros _. split; [done|lia].
    + split; [done|]. intros [_ ?]. lia.
  - apply bool_decide_eq_false in H0. split; [done|]. intros [? _]. lia.
Qed.

Lemma handoffs_step s ev :
  handed s ev ++ job_queue (step s ev) = job_queue s ++ enqueued s ev.
Proof.
  destruct ev as [| |job| |i e]; cbn.
  - unfold start_workers. destruct (is_running s); cbn; by rewrite app_nil_r.
  - unfold stop_workers. destruct (is_running s); cbn; by rewrite app_nil_r.
  - unfold submit_job. destruct (full _ _); cbn; by rewrite ?app_nil_r.
  - unfold submit_job_count. destruct (submitting s); cbn; by rewrite app_nil_r.
  - unfold _worker_loop.
    destruct (workers s !! i) as [w|]; [|by rewrite app_nil_r].
    destruct w; cbn; repeat (case_match; cbn); simplify_eq/=;
      rewrite ?app_nil_r; try done.
Qed.

Lemma handoffs_run s evs :
  (handoffs s evs).2 ++ job_queue (run s evs) = job_queue s ++ (handoffs s evs).1.
Proof.
  revert s. induction evs as [|ev evs IH]; intros s; [by rewrite app_nil_r|].
  cbn. specialize (IH (step s ev)). unfold run in IH.
  rewrite <- app_assoc, IH, !app_assoc. f_equal. apply handoffs_step.
Qed.

(** X16. The queue is first in, first out, and [priority] plays no part:
    the jobs handed to workers so far, in the order in which they were
    handed, followed by the jobs still in the queue, are the accepted jobs
    in the order of their acceptance. *)
Theorem jobs_are_handed_in_submission_order P Q evs :
  let s := run (init P Q) evs in
  (handoffs (init P Q) evs).2 ++ job_queue s = (handoffs (init P Q) evs).1.
Proof. intros s. apply (handoffs_run (init P Q) evs). Qed.

(** *** What the counters count *)

#[local] Arguments successes : simpl never.
#[local] Arguments failures : simpl never.

Lemma successes_snoc l r :
  successes (l ++ [r]) = successes l + (if JobResult.success r then 1 else 0).
Proof.
  unfold successes. rewrite filter_app, length_app. f_equal.
  rewrite filter_cons, filter_nil. by destruct (JobResult.success r).
Qed.

Lemma failures_snoc l r :
  failures (l ++ [r]) = failures l + (if JobResult.success r then 0 else 1).
Proof.
  unfold failures. rewrite filter_app, length_app. f_equal.
  rewrite filter_cons, filter_nil. by destruct (JobResult.success r).
Qed.

Lemma successes_perm l k : l ≡ₚ k → successes l = successes k.
Proof. intros H. unfold successes. by rewrite H. Qed.

Lemma failures_perm l k : l ≡ₚ k → failures l = failures k.
Proof. intros H. unfold failures. by rewrite H. Qed.

Lemma update_stats_failed job_result st :
  jobs_failed (update_stats job_result st) =
  (jobs_failed st + (if JobResult.success job_result then 0 else 1))%Z.
Proof.
  unfold update_stats. destruct (JobResult.success job_result); cbn;
    case_bool_decide; cbn; lia.
Qed.

Lemma update_stats_completed job_result st :
  jobs_completed (update_stats job_result st) =
  (jobs_completed st + 1 + (if JobResult.success job_result then 1 else 0))%Z.
Proof.
  unfold update_stats. destruct (JobResult.success job_result); cbn;
    case_bool_decide; cbn; lia.
Qed.

Lemma counters_inv_step s ev : counters_inv s → counters_inv (step s ev).
Proof.
  unfold counters_inv. intros [Hf Hc].
  destruct ev as [| |job| |i e]; cbn.
  - unfold start_workers. destruct (is_running s); [done|]. cbn.
    by rewrite bind_app, bind_replicate_nil, app_nil_r.
  - unfold stop_workers. by destruct (is_running s).
  - unfold submit_job. by destruct (full _ _).
  - unfold submit_job_count. by destruct (submitting s).
  - unfold _worker_loop.
    destruct (workers s !! i) as [w|] eqn:Hw; [|done].
    destruct w; cbn; repeat (case_match; cbn); try done;
      try (erewrite bind_insert_same; done).
    + pose proof (bind_insert_perm uncounted _ i _ (Updating job_result) Hw) as HP.
      cbn in HP.
      assert (HP' : mbind uncounted (<[i := Updating job_result]> (workers s))
                    ≡ₚ mbind uncounted (workers s) ++ [job_result]).
      { rewrite HP. apply (Permutation_app_comm [job_result]). }
      rewrite (successes_perm _ _ HP'), (failures_perm _ _ HP').
      rewrite (Permutation_length HP').
      rewrite !successes_snoc, !failures_snoc, !length_app. cbn.
      destruct (JobResult.success job_result); lia.
    + pose proof (bind_insert_perm uncounted _ i _ MarkingDone Hw) as HP.
      cbn in HP.
      assert (HP' : mbind uncounted (workers s)
                    ≡ₚ mbind uncounted (<[i := MarkingDone]> (workers s))
                       ++ [job_result]).
      { rewrite <- HP. apply (Permutation_app_comm [job_result]). }
      rewrite update_stats_failed, update_stats_completed.
      rewrite (successes_perm _ _ HP') in Hc.
      rewrite (failures_perm _ _ HP') in Hf.
      rewrite (Permutation_length HP') in Hc.
      rewrite successes_snoc, length_app in Hc. rewrite failures_snoc in Hf.
      cbn in Hc. destruct (JobResult.success job_result); lia.
Qed.

Lemma counters_inv_run P Q evs : counters_inv (run (init P Q) evs).
Proof.
  induction evs as [|ev evs IH] using rev_ind.
  - by unfold counters_inv.
  - rewrite run_snoc. by apply counters_inv_step.
Qed.

Lemma successes_failures l : successes l + failures l = length l.
Proof.
  unfold successes, failures. induction l as [|r l IH]; [done|].
  rewrite !filter_cons.
  destruct (JobResult.success r); repeat case_decide; try done; cbn; lia.
Qed.

(** X17. Whenever no worker stands between publishing a result and counting
    it, [jobs_failed] is the number of failed results in the results queue
    and [jobs_completed] is the number of all results plus the number of
    successful ones; their sum is twice the number of results. *)
Theorem counters_against_results P Q evs :
  let s := run (init P Q) evs in
  mbind uncounted (workers s) = [] →
  jobs_failed (stats s) = Z.of_nat (failures (results_queue s)) ∧
  jobs_completed (stats s) =
    Z.of_nat (length (results_queue s) + successes (results_queue s)) ∧
  (jobs_completed (stats s) + jobs_failed (stats s) =
   2 * Z.of_nat (length (results_queue s)))%Z.
Proof.
  intros s Hu. destruct (counters_inv_run P Q evs) as [Hf Hc].
  fold s in Hf, Hc. cbn in Hf, Hc. rewrite Hu in Hf, Hc.
  change (successes []) with 0 in Hc. change (failures []) with 0 in Hf.
  cbn in Hf, Hc.
  pose proof (successes_failures (results_queue s)). lia.
Qed.

Lemma average_inv_update job_result st :
  average_inv st → average_inv (update_stats job_result st).
Proof.
  intros (Hc & Hf & _). unfold average_inv, update_stats.
  destruct (JobResult.success job_result); cbn;
    (rewrite bool_decide_eq_true_2 by lia); cbn;
    (split_and!; [lia | lia | by right]).
Qed.

Lemma average_inv_step s ev : average_inv (stats s) → average_inv (stats (step s ev)).
Proof.
  intros H. destruct ev as [| |job| |i e]; cbn.
  - unfold start_workers. by destruct (is_running s).
  - unfold stop_workers. by destruct (is_running s).
  - unfold submit_job. by destruct (full _ _).
  - unfold submit_job_count. by destruct (submitting s).
  - unfold _worker_loop.
    destruct (workers s !! i) as [w|]; [|done].
    destruct w; cbn; repeat (case_match; cbn); try done.
    by apply average_inv_update.
Qed.

(** X18. Once a job has been counted, [average_processing_time] is
    [total_processing_time] divided by [jobs_completed + jobs_failed], in
    every state the scheduler reaches; the two counters are never negative
    and [jobs_failed] never exceeds [jobs_completed]. *)
Theorem average_is_total_over_counted P Q evs :
  let st := stats (run (init P Q) evs) in
  (0 ≤ jobs_failed st ≤ jobs_completed st)%Z ∧
  ((jobs_completed st + jobs_failed st ≠ 0)%Z →
   average_processing_time st =
     (total_processing_time st /
      Qc_of_Z (jobs_completed st + jobs_failed st))%Qc).
Proof.
  intros st.
  assert (Ha : average_inv st).
  { subst st. induction evs as [|ev evs IH] using rev_ind.
    - unfold average_inv. cbn. split_and!; [lia | lia | by left].
    - rewrite run_snoc. by apply average_inv_step. }
  destruct Ha as (H1 & H2 & H3). split; [done|].
  intros Hne. by destruct H3.
Qed.

Lemma unmarked_nil_uncounted_nil (ws : list worker) :
  mbind unmarked ws = [] → mbind uncounted ws = [].
Proof.
  induction ws as [|w ws IH]; [done|]. cbn.
  intros H. apply app_eq_nil in H as [Hw Hws].
  rewrite (IH Hws). by destruct w.
Qed.

(** X19. What [get_stats] reports once [job_queue.join] has returned and
    every [submit_job] call is over: a queue size of 0, as many results as
    [jobs_submitted], and a sum of [jobs_completed] and [jobs_failed] that
    is twice [jobs_submitted]. *)
Theorem get_stats_after_join P Q evs :
  let s := run (init P Q) evs in
  drained s = true →
  submitting s = 0 →
  let report := get_stats s in
  queue_size report = 0 ∧
  Z.of_nat (results_queue_size report) = jobs_submitted (snapshot report) ∧
  (jobs_completed (snapshot report) + jobs_failed (snapshot report) =
   2 * jobs_submitted (snapshot report))%Z.
Proof.
  intros s Hd Hsub report.
  unfold drained in Hd. apply bool_decide_eq_true in Hd.
  pose proof (unfinished_run (init P Q) evs 0 eq_refl) as Hu. fold s in Hu.
  rewrite Hd in Hu.
  assert (Hq : job_queue s = []) by (apply nil_length_inv; lia).
  assert (Hw : mbind unmarked (workers s) = []) by (apply nil_length_inv; lia).
  assert (Hl : (ledger (init P Q) evs).2 = []) by (apply nil_length_inv; lia).
  pose proof (in_system_run (init P Q) evs) as Hsys. fold s in Hsys.
  unfold in_system in Hsys.
  rewrite Hq, Hl, (unmarked_nil_carried_nil _ Hw) in Hsys. cbn in Hsys.
  rewrite app_nil_r in Hsys. apply Permutation_length in Hsys.
  rewrite length_fmap in Hsys.
  pose proof (submitted_run (init P Q) evs) as Hs. fold s in Hs.
  rewrite Hsub in Hs. cbn in Hs.
  destruct (counters_inv_run P Q evs) as [Hf Hc]. fold s in Hf, Hc.
  cbn in Hf, Hc. rewrite (unmarked_nil_uncounted_nil _ Hw) in Hf, Hc.
  change (successes []) with 0 in Hc. change (failures []) with 0 in Hf.
  cbn in Hf, Hc.
  pose proof (successes_failures (results_queue s)).
  subst report. unfold get_stats. cbn. rewrite Hq. cbn. lia.
Qed.

(** *** The worker threads *)

Lemma exited_step s ev i :
  workers s !! i = Some Exited → workers (step s ev) !! i = Some Exited.
Proof.
  intros Hi. destruct ev as [| |job| |j e]; cbn.
  - unfold start_workers. destruct (is_running s); [done|]. cbn.
    by apply lookup_app_l_Some.
  - unfold stop_workers. by destruct (is_running s).
  - unfold submit_job. by destruct (full _ _).
  - unfold submit_job_count. by destruct (submitting s).
  - unfold _worker_loop.
    destruct (workers s !! j) as [w|] eqn:Hw; [|done].
    destruct (decide (j = i)) as [->|Hne].
    + rewrite Hi in Hw. by simplify_eq.
    + destruct w; cbn; repeat (case_match; cbn); try done;
        by rewrite list_lookup_insert_ne.
Qed.

Lemma workers_length_step s ev :
  length (workers s) ≤ length (workers (step s ev)).
Proof.
  destruct ev as [| |job| |j e]; cbn.
  - unfold start_workers. destruct (is_running s); [done|]. cbn.
    rewrite length_app. lia.
  - unfold stop_workers. by destruct (is_running s).
  - unfold submit_job. by destruct (full _ _).
  - unfold submit_job_count. by destruct (submitting s).
  - unfold _worker_loop.
    destruct (workers s !! j) as [w|]; [|done].
    destruct w; cbn; repeat (case_match; cbn); try done;
      by rewrite length_insert.
Qed.

(** X20. A worker that has left its loop never takes a step again, whatever
    happens afterwards, a later [start_workers] included: a restart makes
    new workers and keeps the old entries, so the list of workers never
    gets shorter. *)
Theorem exited_worker_never_resumes s evs i :
  workers s !! i = Some Exited →
  workers (run s evs) !! i = Some Exited ∧
  length (workers s) ≤ length (workers (run s evs)).
Proof.
  intros Hi. induction evs as [|ev evs [IH1 IH2]] using rev_ind; [done|].
  rewrite run_snoc. split.
  - by apply exited_step.
  - pose proof (workers_length_step (run s evs) ev). lia.
Qed.

(** *** The admission gate of the cooperative scheduler *)

Lemma gate_inv_start C job_requests : gate_inv C (process_jobs job_requests (async_init C)).
Proof.
  unfold gate_inv, async_checked_out. cbn.
  assert (H0 : mbind in_use (Waiting <$> job_requests) = []).
  { induction job_requests as [|j l IH]; [done|]. cbn. done. }
  rewrite H0. cbn. split_and!; [done | lia | constructor].
Qed.

Lemma gate_inv_step C i e s : gate_inv C s → gate_inv C (_process_job_async i e s).
Proof.
  unfold gate_inv, async_checked_out, _process_job_async.
  intros (Ha & Hs & Hall).
  destruct (tasks s !! i) as [t|] eqn:Ht; [|done].
  destruct t as [job|job a start|]; [| |done].
  - destruct (semaphore s) as [|n] eqn:Hsem; [by rewrite Hsem|].
    destruct (length (agents s)) as [|m] eqn:Hlen; cbn.
    + pose proof (bind_insert_perm in_use _ i _ Finished Ht) as HP. cbn in HP.
      rewrite HP. done.
    + destruct (agents s !! _) as [a|] eqn:Hag; [|by rewrite Hsem]. cbn.
      pose proof (bind_insert_perm in_use _ i _
                    (InExecutor job a (time_time e)) Ht) as HP. cbn in HP.
      rewrite HP. cbn. split_and!; [done | lia |].
      constructor; [|done].
      rewrite Ha in Hag. apply lookup_seq in Hag as [-> ?]. done.
  - pose proof (bind_insert_perm in_use _ i _ Finished Ht) as HP. cbn in HP.
    assert (HP' : a :: mbind in_use (<[i := Finished]> (tasks s))
                  ≡ₚ mbind in_use (tasks s)) by exact HP.
    assert (Hlen : length (mbind in_use (tasks s)) =
                   S (length (mbind in_use (<[i := Finished]> (tasks s))))).
    { by rewrite <- HP'. }
    assert (Hall' : Forall (λ a, a < C) (mbind in_use (<[i := Finished]> (tasks s)))).
    { rewrite <- HP' in Hall. by apply Forall_cons in Hall as [_ Hall]. }
    destruct (wake e); cbn; (split_and!; [done | lia | done]).
Qed.

Lemma gate_inv_run C job_requests evs :
  gate_inv C (async_run (process_jobs job_requests (async_init C)) evs).
Proof.
  induction evs as [|[i e] evs IH] using rev_ind.
  - apply gate_inv_start.
  - rewrite async_run_snoc. by apply gate_inv_step.
Qed.

(** X21. In the cooperative scheduler the free places of the semaphore and
    the tasks that are running in the executor always add up to
    [max_concurrent]: never more than [max_concurrent] units of work run at
    once. *)
Theorem cooperative_admission_is_bounded C job_requests evs :
  let s := async_run (process_jobs job_requests (async_init C)) evs in
  semaphore s + length (async_checked_out s) = C ∧
  length (async_checked_out s) ≤ C.
Proof.
  intros s. destruct (gate_inv_run C job_requests evs) as (_ & Hs & _).
  fold s in Hs. lia.
Qed.

(** X22. A task of the cooperative scheduler that finds the semaphore free
    always starts its unit of work, on the agent whose index is the number
    of results collected so far modulo [max_concurrent]: the choice of the
    agent never fails, and it collects no result at that point. *)
Theorem cooperative_task_starts_on_agent C job_requests evs i job_request e :
  let s := async_run (process_jobs job_requests (async_init C)) evs in
  tasks s !! i = Some (Waiting job_request) →
  semaphore s ≠ 0 →
  let s' := _process_job_async i e s in
  tasks s' !! i =
    Some (InExecutor job_request (length (results s) `mod` C) (time_time e)) ∧
  length (results s) `mod` C < C ∧
  results s' = results s ∧
  semaphore s' = pred (semaphore s).
Proof.
  intros s Ht Hsem s'.
  destruct (gate_inv_run C job_requests evs) as (Ha & Hs & _).
  fold s in Ha, Hs.
  assert (HC : C ≠ 0) by lia.
  assert (Hmod : length (results s) `mod` C < C) by (apply Nat.mod_upper_bound; lia).
  subst s'. unfold _process_job_async. rewrite Ht.
  destruct (semaphore s) as [|n]; [done|].
  rewrite Ha, length_seq.
  destruct C as [|c]; [done|].
  rewrite (lookup_seq_lt 0 (S c) _ Hmod). cbn [Nat.add].
  split_and!; [|done|done|done].
  cbn. apply list_lookup_insert_eq. by eapply lookup_lt_Some.
Qed.

(** *** The statements on runs of the schedulers *)

Lemma drained_batch_has_every_result_witness :
  get_all_results 2 (run (init 1 100) one_job) =
    Some (results_queue (run (init 1 100) one_job),
          with_results_queue [] (run (init 1 100) one_job)) ∧
  JobResult.job_id <$> results_queue (run (init 1 100) one_job)
    ≡ₚ (ledger (init 1 100) one_job).1.
Proof.
  destruct (drained_batch_has_every_result 1 100 one_job 2)
    as (_ & _ & _ & H4 & H5).
  - by vm_compute.
  - vm_compute. lia.
  - split; [exact H5 | exact H4].
Defined.

Lemma get_all_results_drains_in_order_witness :
  get_all_results 2 (run (init 1 100) one_job) =
    Some (results_queue (run (init 1 100) one_job),
          with_results_queue [] (run (init 1 100) one_job)).
Proof.
  apply (get_all_results_drains_in_order (run (init 1 100) one_job) 2).
  vm_compute. lia.
Defined.

Lemma jobs_submitted_counts_accepted_witness :
  (submit_job (job "j2") (run (init 1 1) [SubmitJob (job "j1")])).2 =
  run (init 1 1) [SubmitJob (job "j1")].
Proof.
  apply (jobs_submitted_counts_accepted 1 1 [SubmitJob (job "j1")]).
  by vm_compute.
Defined.

Lemma job_queue_is_bounded_witness :
  length (job_queue (run (init 1 1) [SubmitJob (job "j1"); SubmitJob (job "j2")]))
  ≤ 1.
Proof.
  apply (job_queue_is_bounded 1 1 [SubmitJob (job "j1"); SubmitJob (job "j2")]).
  lia.
Defined.

Lemma counters_against_results_witness :
  jobs_completed (stats (run (init 1 100) one_job)) =
  Z.of_nat (length (results_queue (run (init 1 100) one_job)) +
            successes (results_queue (run (init 1 100) one_job))).
Proof.
  apply (counters_against_results 1 100 one_job). by vm_compute.
Defined.

Lemma average_is_total_over_counted_witness :
  average_processing_time (stats (run (init 1 100) one_job)) =
  (total_processing_time (stats (run (init 1 100) one_job)) /
   Qc_of_Z (jobs_completed (stats (run (init 1 100) one_job)) +
            jobs_failed (stats (run (init 1 100) one_job))))%Qc.
Proof.
  apply (average_is_total_over_counted 1 100 one_job). by vm_compute.
Defined.

Lemma get_stats_after_join_witness :
  queue_size (get_stats (run (init 1 100) one_job)) = 0 ∧
  Z.of_nat (results_queue_size (get_stats (run (init 1 100) one_job))) =
    jobs_submitted (snapshot (get_stats (run (init 1 100) one_job))) ∧
  (jobs_completed (snapshot (get_stats (run (init 1 100) one_job))) +
   jobs_failed (snapshot (get_stats (run (init 1 100) one_job))) =
   2 * jobs_submitted (snapshot (get_stats (run (init 1 100) one_job))))%Z.
Proof.
  apply (get_stats_after_join 1 100 one_job); by vm_compute.
Defined.

Lemma exited_worker_never_resumes_witness :
  workers (run (run (init 1 100)
                  [StartWorkers; StopWorkers; WorkerStep 0 (at_time 0 Proceed)])
             [StartWorkers; WorkerStep 0 (at_time 1 Proceed)]) !! 0
  = Some Exited.
Proof.
  apply (exited_worker_never_resumes
           (run (init 1 100)
              [StartWorkers; StopWorkers; WorkerStep 0 (at_time 0 Proceed)])
           [StartWorkers; WorkerStep 0 (at_time 1 Proceed)] 0).
  by vm_compute.
Defined.

Lemma cooperative_task_starts_on_agent_witness :
  tasks (_process_job_async 0 (at_time 0 Proceed)
           (async_run (process_jobs [job "j1"; job "j2"] (async_init 2)) []))
    !! 0
  = Some (InExecutor (job "j1") (0 `mod` 2) (time_time (at_time 0 Proceed))).
Proof.
  apply (cooperative_task_starts_on_agent 2 [job "j1"; job "j2"] [] 0 (job "j1")
           (at_time 0 Proceed)).
  - reflexivity.
  - by vm_compute.
Defined.

Lemma base_exception_ends_worker_witness :
  workers (_worker_loop 0 (at_time 1 Proceed)
             (_worker_loop 0 (at_time 1 (RaisedBase "SystemExit"))
                (run (init 1 100) busy))) !! 0 = Some Exited ∧
  agents_pool (_worker_loop 0 (at_time 1 Proceed)
                 (_worker_loop 0 (at_time 1 (RaisedBase "SystemExit"))
                    (run (init 1 100) busy))) =
    agents_pool (run (init 1 100) busy) ++ [0] ∧
  results_queue (_worker_loop 0 (at_time 1 Proceed)
                   (_worker_loop 0 (at_time 1 (RaisedBase "SystemExit"))
                      (run (init 1 100) busy))) =
    results_queue (run (init 1 100) busy).
Proof.
  destruct (base_exception_ends_worker 1 100 busy 0 (job "j1") 0 (Qc_of_Z 0)
              (at_time 1 (RaisedBase "SystemExit")) (at_time 1 Proceed)
              "SystemExit" [])
    as (_ & Hw & Hp & _ & Hr & _).
  - by vm_compute.
  - reflexivity.
  - split_and!; [exact Hw | exact Hp | exact Hr].
Defined.

Lemma threaded_results_account_for_accepted_jobs_witness :
  (JobResult.job_id <$> results_queue (run (init 1 100) restart_while_busy)) ++
    (ledger (init 1 100) restart_while_busy).2
  ≡ₚ (ledger (init 1 100) restart_while_busy).1 ∧
  (JobResult.job_id <$> results_queue (run (init 1 100) unit_of_work_exits)) ++
    (ledger (init 1 100) unit_of_work_exits).2
  ≡ₚ (ledger (init 1 100) unit_of_work_exits).1.
Proof.
  split.
  - apply (threaded_results_account_for_accepted_jobs 1 100 restart_while_busy);
      by vm_compute.
  - apply (threaded_results_account_for_accepted_jobs 1 100 unit_of_work_exits);
      by vm_compute.
Defined.


End BatchExtras.
